(** * The file-backed election store of [k8s_elections/models/meta.py]

    A shallow embedding of the classes [Meta] and [Election]: the in-memory
    store (a Python [dict] of election records plus the list of known keys),
    the directory walker that fills it, the fallback read, and the candidate
    queries.  Python's mutable object and the file system are threaded
    through a state-and-exception monad; exceptions leave the state as it was
    when they were raised, as in Python. *)

From stdpp Require Import base option list strings gmap.
From Stdlib Require Import Ascii ZArith Lia.

#[local] Set Warnings "-register-all".

Local Open Scope Z_scope.

(** ** Path strings ([posixpath]) *)

Module Path.

Definition sep : ascii := "/"%char.

Definition is_sep (c : ascii) : bool := bool_decide (c = sep).

(** [b.startswith('/')] *)
Definition startswith_sep (s : string) : bool :=
  match s with
  | String c _ => is_sep c
  | EmptyString => false
  end.

(** [path.endswith('/')] *)
Fixpoint endswith_sep (s : string) : bool :=
  match s with
  | EmptyString => false
  | String c EmptyString => is_sep c
  | String _ s' => endswith_sep s'
  end.

(** One step of [os.path.join(a, b)]: an absolute [b] discards [a]; a
    separator is inserted unless [a] is empty or already ends with one. *)
Definition join (a b : string) : string :=
  if startswith_sep b then b
  else if bool_decide (a = "") || endswith_sep a then a +:+ b
  else a +:+ "/" +:+ b.

(** [os.path.join(a, b, c)] folds [join] from the left. *)
Definition join3 (a b c : string) : string := join (join a b) c.

(** [s.split('/')]: always at least one segment. *)
Fixpoint split (s : string) : list string :=
  match s with
  | EmptyString => [EmptyString]
  | String c s' =>
      if is_sep c then EmptyString :: split s'
      else match split s' with
           | seg :: rest => String c seg :: rest
           | [] => [String c EmptyString]
           end
  end.

(** [s.split('/')[-1]] *)
Definition last_segment (s : string) : string := List.last (split s) "".

(** No ['/'] occurs in [s]: what [os.listdir] guarantees of a name. *)
Fixpoint no_sep (s : string) : bool :=
  match s with
  | EmptyString => true
  | String c s' => negb (is_sep c) && no_sep s'
  end.

(** [needle in hay] on strings. *)
Fixpoint contains (needle hay : string) : bool :=
  String.prefix needle hay ||
  match hay with
  | EmptyString => false
  | String _ hay' => contains needle hay'
  end.

End Path.

(** ** Exceptions and results *)

Inductive exn : Type :=
| NotFoundError                      (* [F.abort(404)]; a missing YAML file *)
| KeyError (k : string)              (* [d[k]] on a dict without [k] *)
| FileNotFoundError (p : string)
| NotADirectoryError (p : string)
| IsADirectoryError (p : string)
| ParseError                         (* malformed YAML or Markdown *)
| TypeError.

Inductive result (A : Type) : Type :=
| Ok (a : A)
| Err (e : exn).
Arguments Ok {A} a.
Arguments Err {A} e.

(** ** The file system

    A tree of named nodes.  Paths are resolved component by component from
    the root, the way the kernel does it: empty components and ["."] stay in
    place, [".."] goes up, and every step needs a directory to step from.
    Relative paths are resolved from the root too (the backend only builds
    paths under the absolute [META]). *)

Inductive node : Type :=
| File (content : string)
| Dir (entries : list (string * node)).

Module FS.

Fixpoint entry (name : string) (es : list (string * node)) : option node :=
  match es with
  | [] => None
  | (n, x) :: es' => if decide (name = n) then Some x else entry name es'
  end.

Fixpoint walk (path : string) (up : list node) (cur : node)
    (comps : list string) : result node :=
  match comps with
  | [] => Ok cur
  | c :: rest =>
      match cur with
      | File _ => Err (NotADirectoryError path)
      | Dir es =>
          if bool_decide (c = "") || bool_decide (c = ".") then
            walk path up cur rest
          else if bool_decide (c = "..") then
            match up with
            | [] => walk path [] cur rest
            | p :: up' => walk path up' p rest
            end
          else
            match entry c es with
            | None => Err (FileNotFoundError path)
            | Some x => walk path (cur :: up) x rest
            end
      end
  end.

Definition resolve (root : node) (path : string) : result node :=
  if bool_decide (path = "") then Err (FileNotFoundError path)
  else walk path [] root (Path.split path).

(** [os.path.isdir] *)
Definition isdir (root : node) (path : string) : bool :=
  match resolve root path with
  | Ok (Dir _) => true
  | _ => false
  end.

(** [os.path.isfile] *)
Definition isfile (root : node) (path : string) : bool :=
  match resolve root path with
  | Ok (File _) => true
  | _ => false
  end.

(** [os.path.exists] *)
Definition exists_ (root : node) (path : string) : bool :=
  match resolve root path with
  | Ok _ => true
  | Err _ => false
  end.

(** [os.listdir] *)
Definition listdir (root : node) (path : string) : result (list string) :=
  match resolve root path with
  | Ok (Dir es) => Ok es.*1
  | Ok (File _) => Err (NotADirectoryError path)
  | Err e => Err e
  end.

(** [open(path).read()] *)
Definition read (root : node) (path : string) : result string :=
  match resolve root path with
  | Ok (File c) => Ok c
  | Ok (Dir _) => Err (IsADirectoryError path)
  | Err e => Err e
  end.

End FS.

(** ** Values and records

    What a YAML document or a Markdown header yields: a record is a Python
    [dict] from field names to values. *)

Inductive value : Type :=
| VNone
| VBool (b : bool)
| VInt (z : Z)
| VStr (s : string)
| VTime (t : Z)                      (* a [datetime], as seconds *)
| VList (l : list value).

(** Python's [==] on these values ([bool] is a subclass of [int]). *)
Fixpoint py_eq (a b : value) : bool :=
  match a, b with
  | VNone, VNone => true
  | VBool x, VBool y => bool_decide (x = y)
  | VBool x, VInt z | VInt z, VBool x => Z.eqb z (if x then 1 else 0)
  | VInt x, VInt y => Z.eqb x y
  | VStr x, VStr y => bool_decide (x = y)
  | VTime x, VTime y => Z.eqb x y
  | VList xs, VList ys =>
      (fix go (xs ys : list value) : bool :=
         match xs, ys with
         | [], [] => true
         | x :: xs', y :: ys' => py_eq x y && go xs' ys'
         | _, _ => false
         end) xs ys
  | _, _ => false
  end.

Abbreviation record := (gmap string value).

(** ** Python dicts with their insertion order

    [self.store]: assigning to a present key replaces the value in place,
    assigning to a new key appends it. *)

Module Dict.

Definition t : Type := list (string * record).

Fixpoint get (k : string) (d : t) : option record :=
  match d with
  | [] => None
  | (k', v) :: d' => if decide (k = k') then Some v else get k d'
  end.

Fixpoint set (k : string) (v : record) (d : t) : t :=
  match d with
  | [] => [(k, v)]
  | (k', v') :: d' =>
      if decide (k = k') then (k, v) :: d' else (k', v') :: set k v d'
  end.

Definition keys (d : t) : list string := d.*1.

End Dict.

(** ** The backend object and the world it runs in *)

(** The attributes of an [Election] instance. *)
Record Election : Type := mkElection {
  META : string;                     (* absolute path of the working copy *)
  REMOTE : string;
  BRANCH : string;
  SECRET : string;
  store : Dict.t;                    (* [self.store] *)
  keys : list string;                (* [self.keys] *)
  _path : string;                    (* [META/elections] *)
}.

(** What a method can see and change: the disk, the wall clock (held fixed
    for the length of one call) and the object itself. *)
Record world : Type := mkWorld {
  disk : node;
  clock : Z;
  self : Election;
}.

Definition with_disk (d : node) (w : world) : world :=
  {| disk := d; clock := clock w; self := self w |}.

Definition with_self (e : Election) (w : world) : world :=
  {| disk := disk w; clock := clock w; self := e |}.

Definition with_keys (ks : list string) (e : Election) : Election :=
  {| META := META e; REMOTE := REMOTE e; BRANCH := BRANCH e;
     SECRET := SECRET e; store := store e; keys := ks; _path := _path e |}.

Definition with_store (d : Dict.t) (e : Election) : Election :=
  {| META := META e; REMOTE := REMOTE e; BRANCH := BRANCH e;
     SECRET := SECRET e; store := d; keys := keys e; _path := _path e |}.

(** ** The monad of methods: state with exceptions *)

Definition M (A : Type) : Type := world → result A * world.

#[global] Instance M_ret : MRet M := λ A a w, (Ok a, w).

#[global] Instance M_bind : MBind M := λ A B f m w,
  match m w with
  | (Ok a, w') => f a w'
  | (Err e, w') => (Err e, w')
  end.

Definition raise {A} (e : exn) : M A := λ w, (Err e, w).

(** Lift a computation that cannot touch the world. *)
Definition lift {A} (r : result A) : M A := λ w, (r, w).

Definition gets {A} (f : Election → A) : M A := λ w, (Ok (f (self w)), w).

Definition modify (f : Election → Election) : M unit :=
  λ w, (Ok tt, with_self (f (self w)) w).

Definition on_disk {A} (f : node → A) : M A := λ w, (Ok (f (disk w)), w).

Definition try_disk {A} (f : node → result A) : M A := λ w, (f (disk w), w).

Definition now : M Z := λ w, (Ok (clock w), w).

(** [F.abort(code)]: only 404 is ever raised. *)
Definition abort {A} (code : Z) : M A := raise NotFoundError.

(** [d[k]] *)
Definition getitem (d : record) (k : string) : M value :=
  match d !! k with
  | Some v => mret v
  | None => raise (KeyError k)
  end.

(** ** Collaborators outside this module

    The YAML and Markdown libraries, the candidate-file helpers, the SQL
    reconciler and the shell are not part of this file of the source; the
    backend is parametric in them. *)

Class Utils : Type := {
  Log : Type;
  (** [yaml.load] on the text of a file *)
  yaml_load : string → result record;
  (** Markdown text to HTML *)
  markdown : string → string;
  (** [utils.extract_candidate_info(md)] *)
  extract_candidate_info : string → result record;
  (** [utils.extract_candidate_description(md)] *)
  extract_candidate_description : string → result string;
  (** [utils.sync_db_with_meta(SESSION, elections)] *)
  sync_db_with_meta : list record → result Log;
  (** [os.system(cmd)]: the exit status and the disk the command leaves *)
  os_system : string → node → Z * node;
}.

Inductive status : Type := UPCOMING | ONGOING | ENDED.

Definition status_label (s : status) : string :=
  match s with
  | UPCOMING => "UPCOMING"
  | ONGOING => "ONGOING"
  | ENDED => "ENDED"
  end.

(** The helpers of [k8s_elections.models.utils] that the backend calls. *)
Module utils.
Section WithUtils.

Context `{U : Utils}.

(** Modelled from the spec: [utils.parse_yaml_from_file] is not in this
    file of the source.  Section 6: it fails with [NotFoundError] if the
    path is absent and with [ParseError] on malformed input. *)
Definition parse_yaml_from_file (path : string) : M record :=
  isf ← on_disk (λ d, FS.isfile d path);
  if isf : bool then
    text ← try_disk (λ d, FS.read d path);
    lift (yaml_load text)
  else raise NotFoundError.

(** Modelled from the spec: [utils.check_election_status] is not in this
    file of the source.  Section 4.2: with the current time [now] and the
    record's [start_time] and [end_time], the status is [UPCOMING] when
    [now < start_time], [ENDED] when [now > end_time], [ONGOING]
    between the two, boundaries included. *)
Definition check_election_status (election : record) : M status :=
  t ← now;
  start_time ← getitem election "start_time";
  end_time ← getitem election "end_time";
  match start_time, end_time with
  | VTime t1, VTime t2 =>
      if Z.ltb t t1 then mret UPCOMING
      else if Z.ltb t2 t then mret ENDED
      else mret ONGOING
  | _, _ => raise TypeError
  end.

(** Modelled from the spec: [utils.renderMD] is not in this file of the
    source.  Sections 4.2 and 6: it renders a path or a text to HTML and
    yields the empty string for an absent file rather than failing. *)
Definition renderMD (md : string) (file : bool) : M string :=
  if file then
    isf ← on_disk (λ d, FS.isfile d md);
    if isf : bool then
      text ← try_disk (λ d, FS.read d md);
      mret (markdown text)
    else mret ""
  else mret (markdown md).

End WithUtils.
End utils.

(** ** class [Meta] *)

Module Meta.

(** [Meta.all]: [[self.store[key] for key in self.store.keys()]] *)
Definition all : M (list record) :=
  st ← gets store;
  mapM (λ key, match Dict.get key st with
               | Some r => mret r
               | None => raise (KeyError key)
               end) (Dict.keys st).

(** The comprehension of [Meta.where] over the snapshot. *)
Fixpoint where_loop (key : string) (v : value) (rs : list record)
    : M (list record) :=
  match rs with
  | [] => mret []
  | r :: rs' =>
      x ← getitem r key;
      rest ← where_loop key v rs';
      mret (if py_eq x v then r :: rest else rest)
  end.

(** [Meta.where]: [[r for r in self.all() if r[key] == value]] *)
Definition where_ (key : string) (v : value) : M (list record) :=
  rs ← all; where_loop key v rs.

(** [Meta.get], over the subclass's [fallback]. *)
Definition get (fallback : string → M record) (key : string) : M record :=
  ks ← gets keys;
  if bool_decide (key ∉ ks) then abort 404
  else
    st ← gets store;
    match Dict.get key st with
    | Some r => mret r
    | None => fallback key
    end.

End Meta.

(** ** class [Election] *)

Module Election.
Section WithUtils.

Context `{U : Utils}.

(** [os.system(cmd)]; the exit status is the value of the call. *)
Definition system (cmd : string) : M Z :=
  λ w, let '(code, d) := os_system cmd (disk w) in (Ok code, with_disk d w).

(** ['/usr/bin/git clone {} {} '.format(remote, meta)] *)
Definition clone_command (remote meta : string) : string :=
  "/usr/bin/git clone " +:+ remote +:+ " " +:+ meta +:+ " ".

(** The pull command of [update_store]; the backslash-newline inside the
    literal keeps the indentation of the continued line. *)
Definition pull_command (meta : string) : string :=
  "/usr/bin/git --git-dir=" +:+ meta +:+ "/.git --work-tree=" +:+ meta
    +:+ "                 pull origin main".

(** [Election.__init__] after [Meta.__init__]; [path] is
    [os.path.abspath(meta ['PATH'])]. *)
Definition init (path remote branch secret : string) (d : node) (t : Z)
    : world :=
  let d' := if negb (FS.isdir d path)
            then snd (os_system (clone_command remote path) d)
            else d in
  {| disk := d'; clock := t;
     self := {| META := path; REMOTE := remote; BRANCH := branch;
                SECRET := secret; store := []; keys := [];
                _path := Path.join path "elections" |} |}.

(** [Election.update_keys] *)
Definition update_keys : M unit :=
  root ← gets _path;
  names ← try_disk (λ d, FS.listdir d root);
  dirs ← on_disk (λ d, filter (λ k, FS.isdir d (Path.join root k)) names);
  modify (with_keys dirs).

(** [Election.build_election_from_yaml] *)
Definition build_election_from_yaml (_path : string) : M record :=
  election ← utils.parse_yaml_from_file (Path.join _path "election.yaml");
  st ← utils.check_election_status election;
  let election := <["status" := VStr (status_label st)]> election in
  let election := <["key" := VStr (Path.last_segment _path)]> election in
  description ← utils.renderMD (Path.join _path "election_desc.md") true;
  let election := <["description" := VStr description]> election in
  results ← utils.renderMD (Path.join _path "results.md") true;
  mret (<["results" := VStr results]> election).

(** The loop of [Election.query] over [self.keys]. *)
Fixpoint query_loop (ks : list string) : M unit :=
  match ks with
  | [] => mret tt
  | e :: ks' =>
      root ← gets _path;
      r ← build_election_from_yaml (Path.join root e);
      modify (λ s, with_store (Dict.set e r (store s)) s);;
      query_loop ks'
  end.

(** [Election.query] *)
Definition query : M unit :=
  ks ← gets keys; query_loop ks.

(** [Election.update_store]; the object itself is the state, the log is
    the value returned. *)
Definition update_store : M Log :=
  meta ← gets META;
  remote ← gets REMOTE;
  cached ← on_disk (λ d, FS.isdir d meta);
  (if negb cached then system (clone_command remote meta)
   else system (pull_command meta));;
  update_keys;;
  query;;
  elections ← Meta.all;
  lift (sync_db_with_meta elections).

(** [Election.fallback] *)
Definition fallback (key : string) : M record :=
  root ← gets _path;
  build_election_from_yaml (Path.join3 root key "election.yaml").

(** [Meta.get] as inherited by [Election]. *)
Definition get (key : string) : M record := Meta.get fallback key.

(** [Election.voters] *)
Definition voters (eid : string) : M record :=
  root ← gets _path;
  utils.parse_yaml_from_file (Path.join3 root eid "voters.yaml").

(** The loop of [Election.candidates] over the listing. *)
Fixpoint candidates_loop (root eid : string) (files : list string)
    : M (list record) :=
  match files with
  | [] => mret []
  | f :: files' =>
      if Path.contains "candidate" f then
        md ← try_disk (λ d, FS.read d (Path.join3 root eid f));
        candidate ← lift (extract_candidate_info md);
        id ← getitem candidate "ID";
        rest ← candidates_loop root eid files';
        mret (<["key" := id]> candidate :: rest)
      else candidates_loop root eid files'
  end.

(** [Election.candidates] *)
Definition candidates (eid : string) : M (list record) :=
  root ← gets _path;
  files ← try_disk (λ d, FS.listdir d (Path.join root eid));
  candidates_loop root eid files.

(** [Election.candidate] *)
Definition candidate (eid cid : string) : M record :=
  root ← gets _path;
  let path := Path.join3 root eid ("candidate-" +:+ cid +:+ ".md") in
  present ← on_disk (λ d, FS.exists_ d path);
  if negb present then abort 404
  else
    md ← try_disk (λ d, FS.read d path);
    c ← lift (extract_candidate_info md);
    let c := <["key" := VStr cid]> c in
    let c := <["election_key" := VStr eid]> c in
    text ← lift (extract_candidate_description md);
    description ← utils.renderMD text false;
    mret (<["description" := VStr description]> c).

End WithUtils.
End Election.

(** ** A fake set of collaborators and a small meta repository

    Stand-ins for the external pieces, to run the backend on concrete
    inputs: the YAML reader only knows the documents of the sample
    repository, the candidate header is the line [ID: <id>], the shell's
    [git] always fails and leaves the disk alone. *)

Module Sample.

Definition yaml (text : string) : result record :=
  if String.prefix "name: " text then
    Ok {[ "name" := VStr (String.substring 6 (String.length text - 6) text);
          "start_time" := VTime 100; "end_time" := VTime 200 ]}
  else Err ParseError.

Definition candidate_info (md : string) : result record :=
  if String.prefix "ID: " md then
    Ok {[ "ID" := VStr (String.substring 4 (String.length md - 4) md) ]}
  else Err ParseError.

#[export] Instance fake : Utils := {|
  Log := nat;
  yaml_load := yaml;
  markdown := λ md, "<p>" +:+ md +:+ "</p>";
  extract_candidate_info := candidate_info;
  extract_candidate_description := λ md, Ok md;
  sync_db_with_meta := λ rs, Ok (length rs);
  os_system := λ _ d, (128, d);
|}.

(** [/meta/elections] holds the election [e1] with two candidate files
    and a note, the election [e2] with an unreadable YAML file, and a stray
    file. *)
Definition e1 : node :=
  Dir [("election.yaml", File "name: board");
       ("candidate-1.md", File "ID: alice");
       ("candidate-2.md", File "ID: bob");
       ("notes.md", File "minutes")].

Definition e2 : node := Dir [("election.yaml", File "???")].

Definition repo (elections : list (string * node)) : node :=
  Dir [("meta", Dir [(".git", Dir []); ("elections", Dir elections)])].

Definition root : node :=
  repo [("e1", e1); ("e2", e2); ("README.md", File "readme")].

(** The same repository without the broken election. *)
Definition tidy : node := repo [("e1", e1); ("README.md", File "readme")].

(** An election directory with exactly two candidate files and a note. *)
Definition scenario : node :=
  repo [("e1", Dir [("candidate-1.md", File "ID: alice");
                    ("candidate-2.md", File "ID: bob");
                    ("notes.md", File "minutes")])].

(** A repository in which [e1/election.yaml] is itself a directory holding
    a file [election.yaml]. *)
Definition nested : node :=
  repo [("e1", Dir [("election.yaml",
                     Dir [("election.yaml", File "name: inner")])])].

Definition backend (ks : list string) (st : Dict.t) : Election :=
  {| META := "/meta"; REMOTE := "https://example.org/meta.git";
     BRANCH := "main"; SECRET := ""; store := st; keys := ks;
     _path := "/meta/elections" |}.

Definition at_ (d : node) (ks : list string) (st : Dict.t) : world :=
  {| disk := d; clock := 150; self := backend ks st |}.

(** The record of [e1] as a refresh builds it at time 150. *)
Definition board : record :=
  {[ "name" := VStr "board"; "start_time" := VTime 100;
     "end_time" := VTime 200; "status" := VStr "ONGOING";
     "key" := VStr "e1"; "description" := VStr ""; "results" := VStr "" ]}.

(** What the fallback read builds from the [nested] repository. *)
Definition inner : record :=
  {[ "name" := VStr "inner"; "start_time" := VTime 100;
     "end_time" := VTime 200; "status" := VStr "ONGOING";
     "key" := VStr "election.yaml"; "description" := VStr "";
     "results" := VStr "" ]}.

(** The candidates of [e1]. *)
Definition alice : record := {[ "ID" := VStr "alice"; "key" := VStr "alice" ]}.
Definition bob : record := {[ "ID" := VStr "bob"; "key" := VStr "bob" ]}.

(** A working copy without an [elections] directory. *)
Definition bare : node := Dir [("meta", Dir [(".git", Dir [])])].

(** An election directory in which a sub-directory is named [candidates]. *)
Definition crowded : node :=
  repo [("e1", Dir [("notes.md", File "minutes");
                    ("candidates", Dir []);
                    ("candidate-1.md", File "ID: alice")])].

(** A record left in the store by an earlier refresh. *)
Definition old : record :=
  {[ "name" := VStr "old"; "key" := VStr "e0" ]}.

End Sample.

(** ** Vocabulary of the statements *)

(** [m] writes nothing: the world after it is the world before it. *)
Definition readonly {A} (m : M A) : Prop := ∀ w, (m w).2 = w.

(** The value of [m] is decided by the disk and the clock alone. *)
Definition env_only {A} (m : M A) : Prop :=
  ∀ w1 w2, disk w1 = disk w2 → clock w1 = clock w2 → (m w1).1 = (m w2).1.

(** The values of a dict in the order of its keys. *)
Definition snapshot (d : Dict.t) : list record :=
  omap (λ k, Dict.get k d) (Dict.keys d).

Definition has_field (f : string) (r : record) : bool :=
  bool_decide (is_Some (r !! f)).

(** [r] has the field [f] and its value is [==] to [v]. *)
Definition field_is (f : string) (v : value) (r : record) : bool :=
  match r !! f with
  | Some x => py_eq x v
  | None => false
  end.

(** [w] with the records map replaced by [d]. *)
Definition set_store (d : Dict.t) (w : world) : world :=
  with_self (with_store d (self w)) w.

(** The loop of [query] on the records map alone: each key's record is
    assigned as soon as it is parsed, and the first failure stops the loop
    with the map as it then stands. *)
Fixpoint refresh_store (parse : string → result record) (ks : list string)
    (d : Dict.t) : result unit * Dict.t :=
  match ks with
  | [] => (Ok tt, d)
  | k :: ks' =>
      match parse k with
      | Ok r => refresh_store parse ks' (Dict.set k r d)
      | Err e => (Err e, d)
      end
  end.

Section Vocabulary.

Context `{U : Utils}.

(** The record that parsing the directory of key [k] yields in [w]: what
    [query] stores for [k]. *)
Definition parsed (w : world) (k : string) : result record :=
  (Election.build_election_from_yaml (Path.join (_path (self w)) k) w).1.

(** The shell command [update_store] issues in [w]. *)
Definition fetch_command (w : world) : string :=
  if negb (FS.isdir (disk w) (META (self w)))
  then Election.clone_command (REMOTE (self w)) (META (self w))
  else Election.pull_command (META (self w)).

(** What [update_store] does after the fetch. *)
Definition refresh : M Log :=
  Election.update_keys;;
  Election.query;;
  elections ← Meta.all;
  lift (sync_db_with_meta elections).

End Vocabulary.

(** A name as a directory listing yields it: not empty, not [.] or [..],
    without a separator. *)
Definition plain_name (k : string) : bool :=
  negb (bool_decide (k = "") || bool_decide (k = ".") || bool_decide (k = ".."))
  && Path.no_sep k.

(** The entry named [k] among [es] is a directory. *)
Definition is_subdir (k : string) (es : list (string * node)) : bool :=
  match FS.entry k es with
  | Some (Dir _) => true
  | _ => false
  end.

(** Two worlds with the same disk, clock and elections path: they differ at
    most in the known keys, the records map and the repository settings. *)
Definition same_site (w1 w2 : world) : Prop :=
  disk w1 = disk w2 ∧ clock w1 = clock w2
  ∧ _path (self w1) = _path (self w2).

(** The four fields [build_election_from_yaml] computes. *)
Definition computed_fields : list string :=
  ["status"; "key"; "description"; "results"].

(** * Properties *)

(** ** Paths *)

Section PathFacts.

Import Path.

Lemma append_cons c (a b : string) : String c a +:+ b = String c (a +:+ b).
Proof. reflexivity. Qed.

Lemma append_nil (b : string) : "" +:+ b = b.
Proof. reflexivity. Qed.

Lemma split_nonempty s : split s ≠ [].
Proof.
  destruct s as [|c s]; simpl; [done|].
  destruct (is_sep c); [done|]. by destruct (split s).
Qed.

Lemma split_no_sep s : no_sep s = true → split s = [s].
Proof.
  induction s as [|c s IH]; simpl; [done|].
  intros [Hc Hs]%andb_prop. apply negb_true_iff in Hc.
  rewrite Hc, (IH Hs). done.
Qed.

Lemma no_sep_startswith s : no_sep s = true → startswith_sep s = false.
Proof.
  destruct s as [|c s]; simpl; [done|].
  intros [Hc _]%andb_prop. by apply negb_true_iff in Hc.
Qed.

(** Splitting after a separator splits the two halves apart. *)
Lemma split_app_sep a b :
  split (a +:+ String sep b) = split a ++ split b.
Proof.
  induction a as [|c a IH].
  - done.
  - rewrite append_cons. simpl. rewrite IH. destruct (is_sep c); [done|].
    pose proof (split_nonempty a). by destruct (split a).
Qed.

Lemma endswith_sep_inv a :
  endswith_sep a = true → ∃ a', a = a' +:+ String sep "".
Proof.
  induction a as [|c a IH]; simpl; [done|].
  destruct a as [|c' a].
  - unfold is_sep. intros ->%bool_decide_eq_true. by exists "".
  - intros [a' Ha']%IH. exists (String c a'). by rewrite append_cons, <- Ha'.
Qed.

Lemma last_app_nonempty (l1 l2 : list string) d :
  l2 ≠ [] → List.last (l1 ++ l2) d = List.last l2 d.
Proof.
  intros Hl2. induction l1 as [|x l1 IH]; [done|].
  simpl. rewrite IH. destruct (l1 ++ l2) eqn:E; [|done].
  by apply app_eq_nil in E as [_ ?].
Qed.

Lemma string_app_assoc (a b c : string) : (a +:+ b) +:+ c = a +:+ (b +:+ c).
Proof.
  induction a as [|x a IH]; [done|]. by rewrite !append_cons, IH.
Qed.

(** The last segment of a joined path is the name joined on, whenever the
    name holds no separator: [os.path.join(a, b).split('/')[-1] == b]. *)
Lemma last_segment_join a b :
  no_sep b = true → last_segment (join a b) = b.
Proof.
  intros Hb. unfold join, last_segment.
  rewrite (no_sep_startswith _ Hb).
  assert (Hlast : ∀ x, List.last (split (x +:+ String sep b)) "" = b).
  { intros x. rewrite split_app_sep, last_app_nonempty
      by apply split_nonempty.
    by rewrite (split_no_sep _ Hb). }
  case_bool_decide as Ha; simpl.
  - subst a. by rewrite append_nil, (split_no_sep _ Hb).
  - destruct (endswith_sep a) eqn:E.
    + apply endswith_sep_inv in E as [a' ->].
      rewrite string_app_assoc, append_cons, append_nil. apply Hlast.
    + apply Hlast.
Qed.

End PathFacts.

(** ** The monad: which computations write, and what they read *)

Section MonadFacts.

Context {A B : Type}.

Lemma readonly_ret (a : A) : readonly (mret a).
Proof. done. Qed.

Lemma readonly_raise e : readonly (@raise A e).
Proof. done. Qed.

Lemma readonly_lift (r : result A) : readonly (lift r).
Proof. done. Qed.

Lemma readonly_gets (f : Election → A) : readonly (gets f).
Proof. done. Qed.

Lemma readonly_on_disk (f : node → A) : readonly (on_disk f).
Proof. done. Qed.

Lemma readonly_try_disk (f : node → result A) : readonly (try_disk f).
Proof. done. Qed.

Lemma readonly_abort c : readonly (@abort A c).
Proof. done. Qed.

Lemma bind_run (m : M A) (f : A → M B) w :
  (m ≫= f) w = match m w with
               | (Ok a, w') => f a w'
               | (Err e, w') => (Err e, w')
               end.
Proof. reflexivity. Qed.

Lemma readonly_bind (m : M A) (f : A → M B) :
  readonly m → (∀ a, readonly (f a)) → readonly (m ≫= f).
Proof.
  intros Hm Hf w. unfold mbind, M_bind.
  specialize (Hm w). destruct (m w) as [[a|e] w']; simpl in *; subst; [|done].
  apply Hf.
Qed.

Lemma env_only_ret (a : A) : env_only (mret a).
Proof. done. Qed.

Lemma env_only_raise e : env_only (@raise A e).
Proof. done. Qed.

Lemma env_only_lift (r : result A) : env_only (lift r).
Proof. done. Qed.

Lemma env_only_on_disk (f : node → A) : env_only (on_disk f).
Proof. intros w1 w2 Hd _. unfold on_disk. simpl. by rewrite Hd. Qed.

Lemma env_only_try_disk (f : node → result A) : env_only (try_disk f).
Proof. intros w1 w2 Hd _. unfold try_disk. simpl. by rewrite Hd. Qed.

Lemma env_only_bind (m : M A) (f : A → M B) :
  readonly m → env_only m → (∀ a, env_only (f a)) → env_only (m ≫= f).
Proof.
  intros Hro Hm Hf w1 w2 Hd Hc. unfold mbind, M_bind.
  pose proof (Hro w1) as H1. pose proof (Hro w2) as H2.
  specialize (Hm w1 w2 Hd Hc).
  destruct (m w1) as [r1 w1'], (m w2) as [r2 w2']; simpl in *; subst.
  destruct r2 as [a|e]; [|done]. by apply Hf.
Qed.

End MonadFacts.

Lemma readonly_now : readonly now.
Proof. done. Qed.

Lemma env_only_now : env_only now.
Proof. intros w1 w2 _ Hc. unfold now. simpl. by rewrite Hc. Qed.

Lemma readonly_getitem d k : readonly (getitem d k).
Proof. unfold getitem. by destruct (d !! k). Qed.

Lemma env_only_getitem d k : env_only (getitem d k).
Proof. unfold getitem. by destruct (d !! k). Qed.

Lemma readonly_mapM {A B} (f : A → M B) l :
  (∀ a, readonly (f a)) → readonly (mapM f l).
Proof.
  intros Hf. induction l as [|a l IH]; [done|].
  apply readonly_bind; [done|]. intros b.
  apply readonly_bind; [done|]. intros bs. done.
Qed.

Create HintDb ro discriminated.

#[local] Hint Resolve readonly_ret readonly_raise readonly_lift readonly_gets
  readonly_on_disk readonly_try_disk readonly_abort readonly_now
  readonly_getitem : ro.

Create HintDb env discriminated.

#[local] Hint Resolve env_only_ret env_only_raise env_only_lift
  env_only_on_disk env_only_try_disk env_only_now env_only_getitem : env.

(** Walk down a chain of binds, splitting on the tested values. *)
Ltac ro :=
  repeat first
    [ progress auto with ro
    | apply readonly_bind; [|intros ?]
    | match goal with
      | |- readonly (if ?b then _ else _) => destruct b
      | |- readonly (match ?x with _ => _ end) => destruct x
      end ].

Ltac env :=
  repeat first
    [ progress auto with env
    | apply env_only_bind; [ro| |intros ?]
    | match goal with
      | |- env_only (if ?b then _ else _) => destruct b
      | |- env_only (match ?x with _ => _ end) => destruct x
      end ].

(** Unfold the primitives of the monad in the goal and the hypotheses. *)
Ltac run :=
  unfold mbind, M_bind, mret, M_ret, abort, raise, lift, gets, modify,
    on_disk, try_disk, now, getitem in *; simpl in *.

(** Run the primitive [f] at the head of a chain of binds. *)
Tactic Notation "step" reference(f) :=
  rewrite bind_run; unfold f at 1; cbv beta iota.

Tactic Notation "step" reference(f) "in" hyp(H) :=
  rewrite bind_run in H; unfold f at 1 in H; cbv beta iota in H.

(** Take a successful run apart, bind by bind. *)
Ltac unroll H :=
  repeat (first [ rewrite bind_run in H | progress case_match ]; simplify_eq);
  unfold mret, M_ret in *; simplify_eq.

Section BackendFacts.

Context `{U : Utils}.

Lemma readonly_parse_yaml_from_file p : readonly (utils.parse_yaml_from_file p).
Proof. unfold utils.parse_yaml_from_file. ro. Qed.

Lemma readonly_check_election_status e :
  readonly (utils.check_election_status e).
Proof. unfold utils.check_election_status. ro. Qed.

Lemma readonly_renderMD md file : readonly (utils.renderMD md file).
Proof. unfold utils.renderMD. ro. Qed.

#[local] Hint Resolve readonly_parse_yaml_from_file
  readonly_check_election_status readonly_renderMD : ro.

Lemma readonly_build_election_from_yaml p :
  readonly (Election.build_election_from_yaml p).
Proof. unfold Election.build_election_from_yaml. ro. Qed.

Lemma env_only_build_election_from_yaml p :
  env_only (Election.build_election_from_yaml p).
Proof.
  unfold Election.build_election_from_yaml, utils.parse_yaml_from_file,
    utils.check_election_status, utils.renderMD.
  env.
Qed.

#[local] Hint Resolve readonly_build_election_from_yaml : ro.

Lemma readonly_fallback k : readonly (Election.fallback k).
Proof. unfold Election.fallback. ro. Qed.

Lemma readonly_all : readonly Meta.all.
Proof.
  unfold Meta.all. apply readonly_bind; [done|]. intros st.
  apply readonly_mapM. intros k. ro.
Qed.

End BackendFacts.

(** ** The store as a dict *)

Section DictFacts.

Implicit Types (d : Dict.t) (k : string) (v : record).

Lemma dict_get_set_eq k v d : Dict.get k (Dict.set k v d) = Some v.
Proof.
  induction d as [|[k' v'] d IH]; simpl.
  - by rewrite decide_True.
  - destruct (decide (k = k')) as [->|Hne]; simpl.
    + by rewrite decide_True.
    + by rewrite decide_False.
Qed.

Lemma dict_get_set_ne k k' v d :
  k ≠ k' → Dict.get k (Dict.set k' v d) = Dict.get k d.
Proof.
  intros Hne. induction d as [|[k0 v0] d IH]; simpl.
  - by rewrite decide_False.
  - destruct (decide (k' = k0)) as [->|Hne']; simpl.
    + by rewrite !decide_False.
    + by rewrite IH.
Qed.

Lemma dict_get_keys k d : is_Some (Dict.get k d) ↔ k ∈ Dict.keys d.
Proof.
  unfold Dict.keys. induction d as [|[k' v'] d IH]; simpl.
  - split; [by intros [? ?]|by intros ?%elem_of_nil].
  - rewrite elem_of_cons. destruct (decide (k = k')) as [->|Hne].
    + split; [by left|by eexists].
    + rewrite IH. split; [by right|]. by intros [?|?].
Qed.

(** Reading back every key of a dict never raises. *)
Lemma all_loop_run d ks w :
  (∀ k, k ∈ ks → is_Some (Dict.get k d)) →
  mapM (λ key, match Dict.get key d with
               | Some r => mret r
               | None => raise (KeyError key)
               end) ks w
  = (Ok (omap (λ k, Dict.get k d) ks), w).
Proof.
  set (f := λ key, _).
  induction ks as [|k ks IH]; intros Hks; [done|].
  destruct (Hks k) as [r Hr]; [by left|].
  change (mapM f (k :: ks)) with (y ← f k; l ← mapM f ks; mret (y :: l)).
  rewrite bind_run.
  assert (f k w = (Ok r, w)) as -> by (unfold f; by rewrite Hr).
  rewrite bind_run, IH by (intros; apply Hks; by right). simpl. by rewrite Hr.
Qed.

Lemma all_run w : Meta.all w = (Ok (snapshot (store (self w))), w).
Proof.
  unfold Meta.all, snapshot. run.
  apply all_loop_run. intros k. by rewrite dict_get_keys.
Qed.

Lemma where_loop_run key (val : value) rs w :
  Meta.where_loop key val rs w
  = (if forallb (has_field key) rs
     then Ok (filter (λ r, field_is key val r) rs)
     else Err (KeyError key), w).
Proof.
  induction rs as [|r rs IH]; [done|].
  simpl. unfold has_field at 1. rewrite bind_run. unfold getitem.
  destruct (r !! key) as [x|] eqn:Hx.
  - rewrite bool_decide_true by eauto. simpl. rewrite bind_run, IH.
    destruct (forallb (has_field key) rs); [|done].
    assert (Hf : field_is key val r = py_eq x val)
      by (unfold field_is; by rewrite Hx).
    rewrite filter_cons, Hf.
    by destruct (py_eq x val).
  - rewrite bool_decide_false; [done|]. by intros [? ?].
Qed.

Lemma refresh_store_ext (f g : string → result record) ks d :
  (∀ k, f k = g k) → refresh_store f ks d = refresh_store g ks d.
Proof.
  intros Hfg. revert d. induction ks as [|k ks IH]; intros d; [done|].
  simpl. rewrite Hfg. destruct (g k); [apply IH|done].
Qed.

(** A refresh that runs to its end has assigned every listed key its parsed
    record and has touched no other key. *)
Lemma refresh_store_ok (f : string → result record) ks d d' :
  refresh_store f ks d = (Ok (), d') →
  (∀ k, k ∈ ks → ∃ r, f k = Ok r ∧ Dict.get k d' = Some r)
  ∧ (∀ k, k ∉ ks → Dict.get k d' = Dict.get k d).
Proof.
  revert d. induction ks as [|k0 ks IH]; intros d; simpl.
  - intros [= <-]. split; [by intros k ?%elem_of_nil|done].
  - destruct (f k0) as [r0|] eqn:Hf; [|done].
    intros [Hin Hout]%IH. split.
    + intros k Hk. destruct (decide (k ∈ ks)) as [Hks|Hks]; [by apply Hin|].
      apply elem_of_cons in Hk as [->|?]; [|done].
      exists r0. split; [done|]. rewrite Hout by done. apply dict_get_set_eq.
    + intros k Hk. apply not_elem_of_cons in Hk as [Hne Hks].
      rewrite Hout by done. by apply dict_get_set_ne.
Qed.

(** A refresh runs to its end when every key parses. *)
Lemma refresh_store_total (f : string → result record) ks d :
  (∀ k, k ∈ ks → ∃ r, f k = Ok r) →
  ∃ d', refresh_store f ks d = (Ok (), d').
Proof.
  revert d. induction ks as [|k0 ks IH]; intros d Hks; simpl; [by eexists|].
  destruct (Hks k0) as [r ->]; [by left|].
  apply IH. intros k Hk. apply Hks. by right.
Qed.

(** A key that fails to parse stops the refresh where the keys before it
    have left the map. *)
Lemma refresh_store_stops (f : string → result record) pre k post e d d' :
  refresh_store f pre d = (Ok (), d') →
  f k = Err e →
  refresh_store f (pre ++ k :: post) d = (Err e, d').
Proof.
  intros Hpre Hk. revert d Hpre.
  induction pre as [|k0 pre IH]; intros d; simpl.
  - intros [= <-]. by rewrite Hk.
  - destruct (f k0); [apply IH|done].
Qed.

End DictFacts.

(** ** Reading the store: [get], [where], [all] *)

Section Reads.

Context `{U : Utils}.

(** C7: for every key [k] that is not in the known keys, [get(k)] fails
    with the not-found error of [F.abort(404)], whatever the records map
    and the disk hold for [k]; the store is left as it was. *)
Theorem get_unknown_key (w : world) (k : string) :
  k ∉ keys (self w) → Election.get k w = (Err NotFoundError, w).
Proof.
  intros Hk. unfold Election.get, Meta.get.
  rewrite bind_run. unfold gets at 1.
  by rewrite bool_decide_true.
Qed.

(** Which branch [get] takes on a known key. *)
Lemma get_known_key (w : world) (k : string) :
  k ∈ keys (self w) →
  Election.get k w = match Dict.get k (store (self w)) with
                     | Some r => (Ok r, w)
                     | None => Election.fallback k w
                     end.
Proof.
  intros Hk. unfold Election.get, Meta.get.
  rewrite bind_run. unfold gets at 1.
  rewrite bool_decide_false by (by intros []).
  rewrite bind_run. unfold gets at 1.
  by destruct (Dict.get k (store (self w))).
Qed.

(** C8: a [get(k)] that takes the fallback path ([k] is a known key without
    an entry in the records map) returns what the fallback parse returns and
    leaves the known keys and the records map as they were: the parsed
    record is not cached. *)
Theorem get_fallback_frame (w : world) (k : string) :
  k ∈ keys (self w) →
  Dict.get k (store (self w)) = None →
  (Election.get k w).1 = (Election.fallback k w).1
  ∧ keys (self (Election.get k w).2) = keys (self w)
  ∧ store (self (Election.get k w).2) = store (self w).
Proof.
  intros Hk Hnone. rewrite get_known_key, Hnone by done.
  by rewrite readonly_fallback.
Qed.

(** C3 (as the code has it): [where(field, value)] returns exactly the
    records of [all()] whose [field] is [==] to [value], in the order of
    [all()], provided every record of the store has the field; as soon as
    one record lacks it, the lookup [r[field]] raises [KeyError].  Neither
    call changes the store. *)
Theorem where_filters_or_raises (field : string) (val : value) (w : world) :
  ∃ rs, Meta.all w = (Ok rs, w)
      ∧ Meta.where_ field val w
        = (if forallb (has_field field) rs
           then Ok (filter (λ r, field_is field val r) rs)
           else Err (KeyError field), w).
Proof.
  exists (snapshot (store (self w))). split; [apply all_run|].
  unfold Meta.where_. rewrite bind_run, all_run. apply where_loop_run.
Qed.

(** The [key] field of a parsed election is the last segment of the path
    the parser was given. *)
Lemma build_key_field (w w' : world) (p : string) (r : record) :
  Election.build_election_from_yaml p w = (Ok r, w') →
  r !! "key" = Some (VStr (Path.last_segment p)).
Proof.
  unfold Election.build_election_from_yaml. intros H. unroll H.
  by rewrite lookup_insert_ne, lookup_insert_ne, lookup_insert_eq.
Qed.

(** What [fallback] hands to the parser: the path of the YAML file itself,
    so the file read is [<key>/election.yaml/election.yaml] and the [key]
    field of whatever comes back is the file name. *)
Lemma fallback_key_field (w w' : world) (k : string) (r : record) :
  Election.fallback k w = (Ok r, w') →
  r !! "key" = Some (VStr "election.yaml").
Proof.
  unfold Election.fallback. rewrite bind_run. unfold gets at 1.
  intros H%build_key_field. unfold Path.join3 in H.
  by rewrite last_segment_join in H.
Qed.

(** The record a refresh stores for a key carries that key, for every name
    a directory listing can yield. *)
Lemma parsed_key_field (w : world) (k : string) (r : record) :
  Path.no_sep k = true → parsed w k = Ok r → r !! "key" = Some (VStr k).
Proof.
  intros Hk. unfold parsed.
  destruct (Election.build_election_from_yaml _ w) as [res w'] eqn:E.
  simpl. intros ->. apply build_key_field in E.
  by rewrite last_segment_join in E.
Qed.

End Reads.

(** ** Refreshing the store: [update_keys], [query], [update_store] *)

Section Refresh.

Context `{U : Utils}.

Lemma parsed_set_store d w k : parsed (set_store d w) k = parsed w k.
Proof. unfold parsed. simpl. by apply env_only_build_election_from_yaml. Qed.

(** [query]'s loop is [refresh_store] on the records map; nothing else of
    the world changes. *)
Lemma query_loop_run ks w :
  Election.query_loop ks w
  = ((refresh_store (parsed w) ks (store (self w))).1,
     set_store (refresh_store (parsed w) ks (store (self w))).2 w).
Proof.
  revert w. induction ks as [|k ks IH]; intros w.
  - simpl. by destruct w as [? ? []].
  - simpl. rewrite bind_run. unfold gets at 1. rewrite bind_run.
    pose proof (readonly_build_election_from_yaml
                  (Path.join (_path (self w)) k) w) as Hro.
    unfold parsed at 1 3.
    destruct (Election.build_election_from_yaml _ w) as [[r|e] w1];
      simpl in *; subst w1.
    + rewrite bind_run. unfold modify at 1. rewrite IH.
      change (with_self _ w) with (set_store (Dict.set k r (store (self w))) w).
      rewrite (refresh_store_ext _ (parsed w)) by apply parsed_set_store.
      done.
    + by destruct w as [? ? []].
Qed.

Lemma query_run w :
  Election.query w
  = ((refresh_store (parsed w) (keys (self w)) (store (self w))).1,
     set_store (refresh_store (parsed w) (keys (self w)) (store (self w))).2 w).
Proof.
  unfold Election.query. rewrite bind_run. unfold gets at 1.
  apply query_loop_run.
Qed.

(** C4 (as the code has it): when [query] completes, the known keys are
    unchanged, every known key has an entry in the records map holding its
    freshly parsed record, and every entry whose key is not a known key is
    still there, unchanged: the map is merged into, not replaced. *)
Theorem query_merges_into_store (w w' : world) :
  Election.query w = (Ok (), w') →
  keys (self w') = keys (self w)
  ∧ (∀ k, k ∈ keys (self w) →
       ∃ r, parsed w k = Ok r ∧ Dict.get k (store (self w')) = Some r)
  ∧ (∀ k, k ∉ keys (self w) →
       Dict.get k (store (self w')) = Dict.get k (store (self w))).
Proof.
  rewrite query_run.
  destruct (refresh_store _ _ _) as [res d'] eqn:E. simpl.
  intros [= -> <-]. split; [done|]. simpl.
  by apply refresh_store_ok.
Qed.

(** C5 (as the code has it): when the parse of a known key fails during
    [query], the error reaches the caller, and the records map is left
    part-way through the refresh: the keys listed before the failing one
    already hold their freshly parsed records, every other entry is as it
    was before the refresh began. *)
Theorem query_fails_part_way (w : world) (pre post : list string)
    (k : string) (e : exn) :
  keys (self w) = pre ++ k :: post →
  (∀ k', k' ∈ pre → ∃ r, parsed w k' = Ok r) →
  parsed w k = Err e →
  ∃ w', Election.query w = (Err e, w')
      ∧ keys (self w') = keys (self w)
      ∧ (∀ k', k' ∈ pre →
           ∃ r, parsed w k' = Ok r ∧ Dict.get k' (store (self w')) = Some r)
      ∧ (∀ k', k' ∉ pre →
           Dict.get k' (store (self w')) = Dict.get k' (store (self w))).
Proof.
  intros Hks Hpre Hk.
  destruct (refresh_store_total (parsed w) pre (store (self w)) Hpre)
    as [d' Hd'].
  exists (set_store d' w).
  rewrite query_run, Hks,
    (refresh_store_stops _ pre k post e _ d' Hd' Hk). simpl.
  split; [done|]. split; [done|]. by apply refresh_store_ok.
Qed.

Lemma update_keys_run w names :
  FS.listdir (disk w) (_path (self w)) = Ok names →
  Election.update_keys w
  = (Ok (),
     with_self
       (with_keys
          (filter (λ k, FS.isdir (disk w) (Path.join (_path (self w)) k))
             names)
          (self w)) w).
Proof.
  intros Hls. unfold Election.update_keys.
  step gets. step try_disk. rewrite Hls. cbv beta iota.
  by step on_disk.
Qed.

(** Once the listing succeeds, the known keys are the listed directories,
    however the rest of the refresh ends. *)
Lemma refresh_keys w names :
  FS.listdir (disk w) (_path (self w)) = Ok names →
  keys (self (refresh w).2)
  = filter (λ k, FS.isdir (disk w) (Path.join (_path (self w)) k)) names.
Proof.
  intros Hls. unfold refresh.
  rewrite bind_run, (update_keys_run w names Hls). cbv beta iota.
  rewrite bind_run, query_run.
  destruct (refresh_store _ _ _) as [[[]|e] d']; [|done].
  cbv beta iota. rewrite bind_run, all_run. done.
Qed.

(** C2 (as the code has it): when the fetch step of [update_store] fails,
    nothing is surfaced: the exit status of the shell is dropped, and key
    discovery, the refresh of the records and the reconciliation run on the
    working copy the fetch left, exactly as after a fetch that succeeded;
    in particular the known keys are replaced by the directories listed in
    that working copy. *)
Theorem update_store_ignores_fetch_failure (w : world) (code : Z) (d : node) :
  os_system (fetch_command w) (disk w) = (code, d) →
  code ≠ 0 →
  Election.update_store w = refresh (with_disk d w)
  ∧ (∀ names,
       FS.listdir d (_path (self w)) = Ok names →
       keys (self (Election.update_store w).2)
       = filter (λ k, FS.isdir d (Path.join (_path (self w)) k)) names).
Proof.
  intros Hsys _.
  assert (Hrun : Election.update_store w = refresh (with_disk d w)).
  { unfold Election.update_store, refresh.
    rewrite bind_run. unfold gets at 1. rewrite bind_run. unfold gets at 1.
    rewrite bind_run. unfold on_disk at 1. rewrite bind_run.
    unfold fetch_command in Hsys.
    destruct (FS.isdir (disk w) (META (self w))); simpl in Hsys |- *;
      unfold Election.system at 1; by rewrite Hsys. }
  split; [done|]. intros names Hls. rewrite Hrun.
  by apply (refresh_keys (with_disk d w)).
Qed.

End Refresh.

(** ** Parsing one election: status, candidates *)

Section Parsing.

Context `{U : Utils}.

Lemma check_election_status_run (e : record) (w : world) (T1 T2 : Z) :
  e !! "start_time" = Some (VTime T1) →
  e !! "end_time" = Some (VTime T2) →
  utils.check_election_status e w
  = (Ok (if clock w <? T1 then UPCOMING
         else if T2 <? clock w then ENDED else ONGOING), w).
Proof.
  intros H1 H2. unfold utils.check_election_status, getitem.
  rewrite H1, H2. unfold now, mbind, M_bind, mret, M_ret. simpl.
  by destruct (clock w <? T1), (T2 <? clock w).
Qed.

(** Rendering a sibling Markdown file never fails: an absent file renders
    to the empty string. *)
Lemma renderMD_file_total (p : string) (w : world) :
  ∃ html, utils.renderMD p true w = (Ok html, w).
Proof.
  unfold utils.renderMD. step on_disk.
  destruct (FS.isfile (disk w) p) eqn:Hf; [|by eexists].
  step try_disk.
  unfold FS.isfile in Hf. unfold FS.read.
  destruct (FS.resolve (disk w) p) as [[c|es]|]; try done. by eexists.
Qed.

(** The three status labels are three different strings: the stored label
    tells the states apart. *)
Lemma status_label_inj (a b : status) :
  status_label a = status_label b → a = b.
Proof. by destruct a, b. Qed.

(** C6: for an election whose YAML declares [start_time = T1] and
    [end_time = T2] with [T1 < T2], parsing succeeds and sets the [status]
    field from the clock and the two boundaries alone.  The field holds the
    label of exactly one of three states, and the three labels are told
    apart by the stored value: it is the label of [UPCOMING] exactly when
    [now < T1], the label of [ONGOING] exactly when [T1 <= now <= T2], and
    the label of [ENDED] exactly when [now > T2]. *)
Theorem status_derivation (w : world) (p : string) (e : record) (T1 T2 : Z) :
  (utils.parse_yaml_from_file (Path.join p "election.yaml") w).1 = Ok e →
  e !! "start_time" = Some (VTime T1) →
  e !! "end_time" = Some (VTime T2) →
  T1 < T2 →
  ∃ r st, Election.build_election_from_yaml p w = (Ok r, w)
        ∧ r !! "status" = Some (VStr (status_label st))
        ∧ (st = UPCOMING ↔ clock w < T1)
        ∧ (st = ONGOING ↔ T1 ≤ clock w ≤ T2)
        ∧ (st = ENDED ↔ T2 < clock w)
        ∧ (r !! "status" = Some (VStr (status_label UPCOMING))
           ↔ clock w < T1)
        ∧ (r !! "status" = Some (VStr (status_label ONGOING))
           ↔ T1 ≤ clock w ≤ T2)
        ∧ (r !! "status" = Some (VStr (status_label ENDED))
           ↔ T2 < clock w).
Proof.
  intros He H1 H2 Hlt. unfold Election.build_election_from_yaml.
  pose proof (readonly_parse_yaml_from_file (Path.join p "election.yaml") w)
    as Hro.
  rewrite bind_run.
  destruct (utils.parse_yaml_from_file _ w) as [res w1].
  simpl in He, Hro. subst res w1. cbv beta iota.
  rewrite bind_run, (check_election_status_run e w T1 T2 H1 H2).
  destruct (renderMD_file_total (Path.join p "election_desc.md") w)
    as [desc Hdesc].
  destruct (renderMD_file_total (Path.join p "results.md") w)
    as [res Hres].
  cbv beta iota. rewrite bind_run, Hdesc.
  cbv beta iota. rewrite bind_run, Hres.
  set (st := if clock w <? T1 then UPCOMING
             else if T2 <? clock w then ENDED else ONGOING).
  assert (Hst : (st = UPCOMING ↔ clock w < T1)
                ∧ (st = ONGOING ↔ T1 ≤ clock w ≤ T2)
                ∧ (st = ENDED ↔ T2 < clock w)).
  { unfold st.
    destruct (Z.ltb_spec (clock w) T1); [|destruct (Z.ltb_spec T2 (clock w))];
      repeat split; intros; try done; lia. }
  destruct Hst as (Hup & Hon & Hend).
  eexists _, st. split; [reflexivity|].
  assert (Hfield : ∀ x,
            <["results" := VStr res]>
              (<["description" := VStr desc]>
                 (<["key" := VStr (Path.last_segment p)]>
                    (<["status" := VStr (status_label st)]> e))) !! "status"
            = Some (VStr (status_label x)) ↔ st = x).
  { intros x. rewrite !lookup_insert_ne by done. rewrite lookup_insert_eq.
    split; [|by intros ->].
    intros [= Hx]. by apply status_label_inj. }
  split; [by apply Hfield|].
  split; [done|]. split; [done|]. split; [done|].
  rewrite !Hfield. done.
Qed.

(** What the loop of [candidates] returns when it returns: one record for
    each listed name that contains [candidate], in listing order, built
    from the text of that file and keyed by the [ID] the text declares. *)
Lemma candidates_loop_ok (w w' : world) (root eid : string)
    (files : list string) (rs : list record) :
  Election.candidates_loop root eid files w = (Ok rs, w') →
  Forall2 (λ f r, ∃ md c id,
             FS.read (disk w) (Path.join3 root eid f) = Ok md
             ∧ extract_candidate_info md = Ok c
             ∧ c !! "ID" = Some id
             ∧ r = <["key" := id]> c)
          (filter (λ f, Path.contains "candidate" f) files) rs.
Proof.
  revert rs. induction files as [|f files IH]; intros rs; simpl.
  - intros [= <- <-]. constructor.
  - rewrite filter_cons. destruct (Path.contains "candidate" f); simpl.
    + intros H. step try_disk in H.
      destruct (FS.read (disk w) (Path.join3 root eid f)) as [md|] eqn:Hmd;
        [|done].
      step lift in H.
      destruct (extract_candidate_info md) as [c|] eqn:Hc; [|done].
      step getitem in H.
      destruct (c !! "ID") as [id|] eqn:Hid; [|done].
      unfold mret at 1, M_ret at 1 in H. rewrite bind_run in H.
      destruct (Election.candidates_loop root eid files w)
        as [[rest|] w1] eqn:Hrest; [|done].
      unfold mret, M_ret in H. simplify_eq.
      constructor; [by eexists _, _, _|]. by apply IH.
    + apply IH.
Qed.

(** C9 (as the code has it): over a directory listing, [candidates]
    returns one record for each file whose name contains [candidate] and
    none for the others, so two records for [candidate-1.md],
    [candidate-2.md] and [notes.md]; each record is keyed by the [ID] field
    that the text of its file declares, not by the file's name. *)
Theorem candidates_keyed_by_declared_id (w w' : world) (eid : string)
    (files : list string) (rs : list record) :
  FS.listdir (disk w) (Path.join (_path (self w)) eid) = Ok files →
  Election.candidates eid w = (Ok rs, w') →
  Forall2 (λ f r, ∃ md c id,
             FS.read (disk w) (Path.join3 (_path (self w)) eid f) = Ok md
             ∧ extract_candidate_info md = Ok c
             ∧ c !! "ID" = Some id
             ∧ r = <["key" := id]> c)
          (filter (λ f, Path.contains "candidate" f) files) rs.
Proof.
  intros Hls. unfold Election.candidates.
  step gets.
  step try_disk. rewrite Hls.
  apply candidates_loop_ok.
Qed.

(** C10: whenever [candidate(eid, cid)] succeeds, the record it returns has
    [key] equal to [cid], [election_key] equal to [eid], and a
    [description] rendered from the description part of the candidate
    file [candidate-<cid>.md]. *)
Theorem candidate_fields (w w' : world) (eid cid : string) (r : record) :
  Election.candidate eid cid w = (Ok r, w') →
  r !! "key" = Some (VStr cid)
  ∧ r !! "election_key" = Some (VStr eid)
  ∧ ∃ md text,
      FS.read (disk w)
        (Path.join3 (_path (self w)) eid ("candidate-" +:+ cid +:+ ".md"))
      = Ok md
      ∧ extract_candidate_description md = Ok text
      ∧ r !! "description" = Some (VStr (markdown text)).
Proof.
  unfold Election.candidate, utils.renderMD. intros H.
  step gets in H.
  step on_disk in H.
  destruct (FS.exists_ (disk w) _); [|done]. simpl in H.
  step try_disk in H.
  destruct (FS.read (disk w) _) as [md|] eqn:Hmd; [|done].
  step lift in H.
  destruct (extract_candidate_info md) as [c|]; [|done].
  step lift in H.
  destruct (extract_candidate_description md) as [text|] eqn:Htext; [|done].
  rewrite bind_run in H. unfold mret, M_ret in H. simplify_eq.
  split; [rewrite !lookup_insert_ne by done; apply lookup_insert_eq|].
  split; [rewrite !lookup_insert_ne by done; apply lookup_insert_eq|].
  exists md, text. by rewrite lookup_insert_eq.
Qed.

End Parsing.

(** ** The sample repository: the backend run on concrete inputs *)

Import Sample.

(** Equalities between closed runs are settled by evaluation. *)
Ltac by_run := vm_compute; reflexivity.

(** C1: with [e1] a known key that has no entry in the records map, parsing
    the directory of [e1] yields the record [board] with [key = "e1"], but
    [get("e1")] takes the fallback, which looks for
    [e1/election.yaml/election.yaml] and fails with the not-found error. *)
Theorem fallback_misses_the_directory :
  "e1" ∈ keys (self (at_ root ["e1"] []))
  ∧ Dict.get "e1" (store (self (at_ root ["e1"] []))) = None
  ∧ parsed (at_ root ["e1"] []) "e1" = Ok board
  ∧ board !! "key" = Some (VStr "e1")
  ∧ Election.get "e1" (at_ root ["e1"] [])
    = (Err NotFoundError, at_ root ["e1"] []).
Proof.
  split; [compute_done|]. repeat split; by_run.
Qed.

(** Where the doubled path does exist, the fallback answers with the file
    name as the key. *)
Example fallback_key_is_file_name :
  Election.get "e1" (at_ nested ["e1"] []) = (Ok inner, at_ nested ["e1"] [])
  ∧ inner !! "key" = Some (VStr "election.yaml").
Proof. split; by_run. Qed.

Lemma update_store_ignores_fetch_failure_witness :
  os_system (fetch_command (at_ tidy [] [])) tidy = (128, tidy)
  ∧ 128 ≠ 0
  ∧ Election.update_store (at_ tidy [] [])
    = refresh (with_disk tidy (at_ tidy [] []))
  ∧ (∀ names,
       FS.listdir tidy "/meta/elections" = Ok names →
       keys (self (Election.update_store (at_ tidy [] [])).2)
       = filter (λ k, FS.isdir tidy (Path.join "/meta/elections" k)) names).
Proof.
  split; [reflexivity|]. split; [lia|].
  apply (update_store_ignores_fetch_failure (at_ tidy [] []) 128 tidy);
    [reflexivity|lia].
Defined.

(** C2 fails as stated: the fetch exits with status 128, yet [update_store]
    returns a log, and the store that was empty now lists [e1]. *)
Lemma failed_fetch_still_refreshes :
  (os_system (fetch_command (at_ tidy [] [])) tidy).1 ≠ 0
  ∧ Election.update_store (at_ tidy [] [])
    = (Ok 1%nat, at_ tidy ["e1"] [("e1", board)])
  ∧ (Meta.all (at_ tidy [] [])).1 = Ok []
  ∧ (Meta.all (at_ tidy ["e1"] [("e1", board)])).1 = Ok [board].
Proof.
  split; [by vm_compute|]. repeat split; by_run.
Qed.

(** C3 fails as stated: of the two records in the store only [board] has a
    [status]; filtering on it raises instead of leaving [old] out. *)
Lemma where_raises_on_absent_field :
  Meta.all (at_ root [] [("e0", old); ("e1", board)])
  = (Ok [old; board], at_ root [] [("e0", old); ("e1", board)])
  ∧ old !! "status" = None
  ∧ field_is "status" (VStr "ONGOING") board = true
  ∧ Meta.where_ "status" (VStr "ONGOING")
      (at_ root [] [("e0", old); ("e1", board)])
    = (Err (KeyError "status"), at_ root [] [("e0", old); ("e1", board)]).
Proof. repeat split; by_run. Qed.

Lemma get_unknown_key_witness :
  ("e2" ∉ keys (self (at_ root ["e1"] [("e2", old)])))
  ∧ Election.get "e2" (at_ root ["e1"] [("e2", old)])
    = (Err NotFoundError, at_ root ["e1"] [("e2", old)]).
Proof.
  split; [compute_done|].
  apply (get_unknown_key (at_ root ["e1"] [("e2", old)]) "e2").
  compute_done.
Defined.

Lemma get_fallback_frame_witness :
  (Election.get "e1" (at_ nested ["e1"] [])).1 = Ok inner
  ∧ (Election.get "e1" (at_ nested ["e1"] [])).1
    = (Election.fallback "e1" (at_ nested ["e1"] [])).1
  ∧ keys (self (Election.get "e1" (at_ nested ["e1"] [])).2) = ["e1"]
  ∧ store (self (Election.get "e1" (at_ nested ["e1"] [])).2) = [].
Proof.
  split; [by_run|].
  apply (get_fallback_frame (at_ nested ["e1"] []) "e1");
    [compute_done|reflexivity].
Defined.

Lemma query_merges_into_store_witness :
  Election.query (at_ tidy ["e1"] [("e0", old)])
  = (Ok (), at_ tidy ["e1"] [("e0", old); ("e1", board)])
  ∧ keys (self (at_ tidy ["e1"] [("e0", old); ("e1", board)])) = ["e1"]
  ∧ (∀ k, k ∈ ["e1"] →
       ∃ r, parsed (at_ tidy ["e1"] [("e0", old)]) k = Ok r
          ∧ Dict.get k [("e0", old); ("e1", board)] = Some r)
  ∧ (∀ k, k ∉ ["e1"] →
       Dict.get k [("e0", old); ("e1", board)] = Dict.get k [("e0", old)]).
Proof.
  split; [by_run|].
  apply (query_merges_into_store (at_ tidy ["e1"] [("e0", old)])
           (at_ tidy ["e1"] [("e0", old); ("e1", board)])).
  by_run.
Defined.

(** C4 fails as stated: a sync over a repository that no longer has [e0]
    discovers the single key [e1], and the record of [e0] stays in the
    records map and in the snapshot handed to the reconciler. *)
Lemma stale_entry_survives_sync :
  Election.update_store (at_ tidy ["e0"] [("e0", old)])
  = (Ok 2%nat, at_ tidy ["e1"] [("e0", old); ("e1", board)])
  ∧ keys (self (at_ tidy ["e1"] [("e0", old); ("e1", board)])) = ["e1"]
  ∧ Dict.keys (store (self (at_ tidy ["e1"] [("e0", old); ("e1", board)])))
    = ["e0"; "e1"].
Proof. repeat split; by_run. Qed.

Lemma query_fails_part_way_witness :
  ∃ w', Election.query (at_ root ["e1"; "e2"] [("e0", old)])
        = (Err ParseError, w')
      ∧ keys (self w') = ["e1"; "e2"]
      ∧ (∀ k', k' ∈ ["e1"] →
           ∃ r, parsed (at_ root ["e1"; "e2"] [("e0", old)]) k' = Ok r
              ∧ Dict.get k' (store (self w')) = Some r)
      ∧ (∀ k', k' ∉ ["e1"] →
           Dict.get k' (store (self w')) = Dict.get k' [("e0", old)]).
Proof.
  apply (query_fails_part_way (at_ root ["e1"; "e2"] [("e0", old)])
           ["e1"] [] "e2" ParseError).
  - reflexivity.
  - intros k' Hk'. apply list_elem_of_singleton in Hk'. subst k'.
    exists board. by_run.
  - by_run.
Defined.

(** C5 fails as stated: the parse of [e2] fails after [e1] was refreshed,
    and the records map already holds the new record of [e1]. *)
Lemma failed_refresh_commits_prefix :
  Election.query (at_ root ["e1"; "e2"] [("e0", old)])
  = (Err ParseError, at_ root ["e1"; "e2"] [("e0", old); ("e1", board)])
  ∧ store (self (at_ root ["e1"; "e2"] [("e0", old); ("e1", board)]))
    ≠ store (self (at_ root ["e1"; "e2"] [("e0", old)])).
Proof. split; [by_run|done]. Qed.

Lemma status_derivation_witness :
  ∃ r st,
    Election.build_election_from_yaml "/meta/elections/e1" (at_ root [] [])
    = (Ok r, at_ root [] [])
    ∧ r !! "status" = Some (VStr (status_label st))
    ∧ (st = UPCOMING ↔ 150 < 100)
    ∧ (st = ONGOING ↔ 100 ≤ 150 ≤ 200)
    ∧ (st = ENDED ↔ 200 < 150)
    ∧ (r !! "status" = Some (VStr (status_label UPCOMING)) ↔ 150 < 100)
    ∧ (r !! "status" = Some (VStr (status_label ONGOING)) ↔ 100 ≤ 150 ≤ 200)
    ∧ (r !! "status" = Some (VStr (status_label ENDED)) ↔ 200 < 150).
Proof.
  apply (status_derivation (at_ root [] []) "/meta/elections/e1"
           {[ "name" := VStr "board"; "start_time" := VTime 100;
              "end_time" := VTime 200 ]} 100 200).
  - by_run.
  - by_run.
  - by_run.
  - lia.
Defined.

Lemma candidates_keyed_by_declared_id_witness :
  Forall2 (λ f r, ∃ md c id,
             FS.read scenario (Path.join3 "/meta/elections" "e1" f) = Ok md
             ∧ extract_candidate_info md = Ok c
             ∧ c !! "ID" = Some id
             ∧ r = <["key" := id]> c)
          (filter (λ f, Path.contains "candidate" f)
             ["candidate-1.md"; "candidate-2.md"; "notes.md"])
          [alice; bob].
Proof.
  apply (candidates_keyed_by_declared_id (at_ scenario [] [])
           (at_ scenario [] []) "e1").
  - by_run.
  - by_run.
Defined.

(** C9 fails as stated: over exactly [candidate-1.md], [candidate-2.md] and
    [notes.md], two records come back, keyed by the IDs the files declare,
    ["alice"] and ["bob"], not by ["1"] and ["2"]. *)
Lemma candidates_not_keyed_by_file_name :
  FS.listdir scenario "/meta/elections/e1"
  = Ok ["candidate-1.md"; "candidate-2.md"; "notes.md"]
  ∧ Election.candidates "e1" (at_ scenario [] [])
    = (Ok [alice; bob], at_ scenario [] [])
  ∧ (λ r : record, r !! "key") <$> [alice; bob]
    = [Some (VStr "alice"); Some (VStr "bob")]
  ∧ (λ r : record, r !! "key") <$> [alice; bob]
    ≠ [Some (VStr "1"); Some (VStr "2")].
Proof. split; [by_run|]. split; [by_run|]. split; [by_run|by vm_compute]. Qed.

Lemma candidate_fields_witness :
  ∃ r, Election.candidate "e1" "1" (at_ root [] []) = (Ok r, at_ root [] [])
     ∧ r !! "key" = Some (VStr "1")
     ∧ r !! "election_key" = Some (VStr "e1")
     ∧ ∃ md text,
         FS.read root
           (Path.join3 "/meta/elections" "e1" ("candidate-" +:+ "1" +:+ ".md"))
         = Ok md
         ∧ extract_candidate_description md = Ok text
         ∧ r !! "description" = Some (VStr (markdown text)).
Proof.
  eexists. split; [by_run|].
  eapply (candidate_fields (at_ root [] []) (at_ root [] []) "e1" "1").
  by_run.
Defined.

(** * Further properties of the backend *)

(** ** Resolving joined paths *)

Section FSFacts.

Import Path.

Lemma plain_name_no_sep k : plain_name k = true → no_sep k = true.
Proof. unfold plain_name. by intros [_ ?]%andb_prop. Qed.

Lemma walk_plain p up es k rest :
  plain_name k = true →
  FS.walk p up (Dir es) (k :: rest)
  = match FS.entry k es with
    | None => Err (FileNotFoundError p)
    | Some x => FS.walk p (Dir es :: up) x rest
    end.
Proof.
  unfold plain_name. intros [Hk _]%andb_prop.
  apply negb_true_iff, orb_false_iff in Hk as [Hk H2].
  apply orb_false_iff in Hk as [H0 H1].
  simpl. by rewrite H0, H1, H2.
Qed.

(** Two paths that share a prefix of components: what the first reaches
    decides what the second reaches, whatever was walked before. *)
Lemma walk_suffix p p' s1 s2 n (R : result node) :
  (∀ up cur, FS.walk p up cur s1 = Ok n → FS.walk p' up cur s2 = R) →
  ∀ l up cur,
    FS.walk p up cur (l ++ s1) = Ok n → FS.walk p' up cur (l ++ s2) = R.
Proof.
  intros Hs. induction l as [|c l IH]; intros up cur; [apply Hs|].
  simpl. destruct cur as [?|es]; [done|].
  destruct (bool_decide (c = "") || bool_decide (c = ".")); [apply IH|].
  destruct (bool_decide (c = "..")); [destruct up; apply IH|].
  destruct (FS.entry c es); [apply IH|done].
Qed.

Lemma append_nonempty (a b : string) : a ≠ "" → a +:+ b ≠ "".
Proof. destruct a; [done|]. by rewrite append_cons. Qed.

(** Looking a plain name up under a directory: [os.path.join(dir, k)]
    resolves to the entry [k] of what [dir] resolves to. *)
Lemma resolve_join d dir k es :
  plain_name k = true →
  FS.resolve d dir = Ok (Dir es) →
  FS.resolve d (join dir k)
  = match FS.entry k es with
    | Some x => Ok x
    | None => Err (FileNotFoundError (join dir k))
    end.
Proof.
  intros Hk. pose proof (plain_name_no_sep k Hk) as Hns.
  unfold FS.resolve. case_bool_decide as Hdir; [done|]. intros Hres.
  set (R := match FS.entry k es with
            | Some x => Ok x
            | None => Err (FileNotFoundError (join dir k))
            end).
  assert (Hlast : ∀ up, FS.walk (join dir k) up (Dir es) [k] = R).
  { intros up. rewrite walk_plain by done. unfold R.
    by destruct (FS.entry k es). }
  assert (Hsplit : join dir k ≠ ""
                   ∧ ∃ l s1, split dir = l ++ s1 ∧ split (join dir k) = l ++ [k]
                           ∧ (s1 = [] ∨ s1 = [""])).
  { unfold join. rewrite (no_sep_startswith _ Hns).
    rewrite bool_decide_false by done. simpl.
    destruct (endswith_sep dir) eqn:E.
    - split; [by apply append_nonempty|].
      apply endswith_sep_inv in E as [a' ->].
      exists (split a'), [""]. rewrite string_app_assoc, append_cons, append_nil.
      rewrite !split_app_sep, (split_no_sep _ Hns). auto.
    - split; [by apply append_nonempty|].
      exists (split dir), []. rewrite app_nil_r.
      change ("/" +:+ k) with (String sep k).
      rewrite split_app_sep, (split_no_sep _ Hns). auto. }
  destruct Hsplit as (Hne & l & s1 & Hl & Hj & Hs1).
  rewrite bool_decide_false by done. rewrite Hj. rewrite Hl in Hres.
  revert Hres. apply walk_suffix. intros up cur.
  destruct Hs1 as [->| ->]; simpl.
  - intros [= ->]. apply Hlast.
  - destruct cur as [?|es0]; [done|]. intros [= ->]. apply Hlast.
Qed.

End FSFacts.

(** ** The store between refreshes *)

Section StoreFacts.

Context `{U : Utils}.

Implicit Types (d : Dict.t) (k : string).

Lemma omap_ext_in {A B} (f g : A → option B) (l : list A) :
  (∀ x, x ∈ l → f x = g x) → omap f l = omap g l.
Proof.
  induction l as [|x l IH]; intros Hfg; [done|].
  assert (Hl : omap f l = omap g l)
    by (apply IH; intros; apply Hfg; by right).
  simpl. rewrite (Hfg x) by (by left).
  destruct (g x); simpl; [f_equal|]; apply Hl.
Qed.

(** A dict without repeated keys lists its values once each. *)
Lemma snapshot_nodup d : NoDup (Dict.keys d) → snapshot d = d.*2.
Proof.
  unfold snapshot, Dict.keys.
  induction d as [|[k v] d IH]; [done|].
  intros [Hk Hd]%NoDup_cons.
  assert (Htail : omap (λ k0, Dict.get k0 ((k, v) :: d)) d.*1 = d.*2).
  { rewrite <- (IH Hd). apply omap_ext_in. intros k' Hk'.
    simpl. rewrite decide_False; [done|]. by intros ->. }
  simpl. rewrite decide_True by done. simpl. f_equal. exact Htail.
Qed.

Lemma dict_keys_set k (v : record) d :
  Dict.keys (Dict.set k v d)
  = if bool_decide (k ∈ Dict.keys d) then Dict.keys d else Dict.keys d ++ [k].
Proof.
  unfold Dict.keys. induction d as [|[k' v'] d IH]; [done|].
  cbn [Dict.set]. destruct (decide (k = k')) as [->|Hne];
    rewrite !fmap_cons; cbn [fst].
  - rewrite bool_decide_true; [done|]. by left.
  - rewrite IH. case_bool_decide as Hin.
    + rewrite bool_decide_true; [done|]. by right.
    + rewrite bool_decide_false; [done|]. by intros [?|?]%elem_of_cons.
Qed.

Lemma dict_set_same k (v : record) d :
  Dict.get k d = Some v → Dict.set k v d = d.
Proof.
  induction d as [|[k' v'] d IH]; [done|].
  simpl. destruct (decide (k = k')) as [->|Hne].
  - by intros [= ->].
  - intros Hget. by rewrite IH.
Qed.

(** Assigning into the store keeps the entries there in place and adds at
    the end; it never repeats a key. *)
Lemma refresh_store_keys (f : string → result record) ks d :
  Dict.keys d `prefix_of` Dict.keys (refresh_store f ks d).2
  ∧ (NoDup (Dict.keys d) → NoDup (Dict.keys (refresh_store f ks d).2)).
Proof.
  revert d. induction ks as [|k ks IH]; intros d; [done|].
  simpl. destruct (f k) as [r|e]; [|done].
  destruct (IH (Dict.set k r d)) as [Hpre Hnd].
  rewrite dict_keys_set in Hpre, Hnd. split.
  - etrans; [|apply Hpre]. case_bool_decide; [done|]. by apply prefix_app_r.
  - intros Hd. apply Hnd. case_bool_decide as Hin; [done|].
    apply NoDup_app. split; [done|]. split; [|apply NoDup_singleton].
    intros x Hx ->%list_elem_of_singleton. done.
Qed.

(** A refresh over a map that already holds the parsed records changes
    nothing. *)
Lemma refresh_store_fixpoint (f : string → result record) ks d :
  (∀ k, k ∈ ks → ∃ r, f k = Ok r ∧ Dict.get k d = Some r) →
  refresh_store f ks d = (Ok (), d).
Proof.
  induction ks as [|k ks IH]; intros Hks; [done|].
  simpl. destruct (Hks k) as (r & -> & Hr); [by left|].
  rewrite (dict_set_same _ _ _ Hr). apply IH.
  intros k' Hk'. apply Hks. by right.
Qed.

Lemma set_store_twice d d' w : set_store d' (set_store d w) = set_store d' w.
Proof. done. Qed.

Lemma set_store_same w : set_store (store (self w)) w = w.
Proof. by destruct w as [? ? []]. Qed.

(** X1: a known key with an entry in the records map is served from the
    map; the disk is not looked at, so the answer is the same whatever the
    disk holds, and the world is left as it was. *)
Theorem get_cached_ignores_disk (w : world) (k : string) (r : record)
    (d : node) :
  k ∈ keys (self w) →
  Dict.get k (store (self w)) = Some r →
  Election.get k (with_disk d w) = (Ok r, with_disk d w).
Proof.
  intros Hk Hr. rewrite get_known_key by done. simpl. by rewrite Hr.
Qed.

(** X2: when the records map has no repeated key, [all()] returns the
    record of every entry exactly once, in the order the entries were first
    assigned, and changes nothing. *)
Theorem all_lists_store_in_order (w : world) :
  NoDup (Dict.keys (store (self w))) →
  Meta.all w = (Ok (store (self w)).*2, w).
Proof. intros Hnd. by rewrite all_run, snapshot_nodup. Qed.

(** X3: whether [query] completes or raises, the entries that were in the
    records map keep their place at the front of the map, new keys are
    added behind them, and no key comes to be listed twice. *)
Theorem query_keeps_store_order (w : world) :
  NoDup (Dict.keys (store (self w))) →
  Dict.keys (store (self w))
    `prefix_of` Dict.keys (store (self (Election.query w).2))
  ∧ NoDup (Dict.keys (store (self (Election.query w).2))).
Proof.
  intros Hnd. rewrite query_run. simpl.
  destruct (refresh_store_keys (parsed w) (keys (self w)) (store (self w)))
    as [Hpre Hnd'].
  split; [done|]. by apply Hnd'.
Qed.

(** X4: after a [query] that completes, [get(k)] for every known key [k]
    returns the record that was parsed from [k]'s directory, from the
    records map, without a fallback read. *)
Theorem get_after_query (w w' : world) (k : string) :
  Election.query w = (Ok (), w') →
  k ∈ keys (self w) →
  ∃ r, parsed w k = Ok r ∧ Election.get k w' = (Ok r, w').
Proof.
  rewrite query_run.
  destruct (refresh_store _ _ _) as [res d'] eqn:E. simpl.
  intros [= -> <-] Hk.
  destruct (refresh_store_ok _ _ _ _ E) as [Hin _].
  destruct (Hin k Hk) as (r & Hr & Hget). exists r. split; [done|].
  rewrite get_known_key by done. simpl. by rewrite Hget.
Qed.

(** X5: after a [query] that completes, the record stored under a known
    key [k] that holds no ['/'] carries [k] in its [key] field. *)
Theorem query_stores_key_field (w w' : world) (k : string) (r : record) :
  Election.query w = (Ok (), w') →
  k ∈ keys (self w) →
  Path.no_sep k = true →
  Dict.get k (store (self w')) = Some r →
  r !! "key" = Some (VStr k).
Proof.
  rewrite query_run.
  destruct (refresh_store _ _ _) as [res d'] eqn:E. simpl.
  intros [= -> <-] Hk Hns. simpl.
  destruct (refresh_store_ok _ _ _ _ E) as [Hin _].
  destruct (Hin k Hk) as (r' & Hr & Hget). rewrite Hget. intros [= <-].
  by apply (parsed_key_field w).
Qed.

(** X6: [query] is idempotent: run again on the world a completed [query]
    left, with the disk and the clock as they were, it completes and
    changes nothing. *)
Theorem query_idempotent (w w' : world) :
  Election.query w = (Ok (), w') → Election.query w' = (Ok (), w').
Proof.
  rewrite query_run.
  destruct (refresh_store _ _ _) as [res d'] eqn:E. simpl.
  intros [= -> <-]. rewrite query_run. simpl.
  destruct (refresh_store_ok _ _ _ _ E) as [Hin _].
  rewrite (refresh_store_ext _ (parsed w)) by apply parsed_set_store.
  by rewrite (refresh_store_fixpoint _ _ _ Hin).
Qed.

End StoreFacts.

(** ** Discovering keys and synchronising *)

Section SyncFacts.

Context `{U : Utils}.

Lemma filter_ext_in {A} (P Q : A → Prop) `{!∀ x, Decision (P x)}
    `{!∀ x, Decision (Q x)} (l : list A) :
  (∀ x, x ∈ l → P x ↔ Q x) → filter P l = filter Q l.
Proof.
  induction l as [|x l IH]; intros HPQ; [done|].
  rewrite !filter_cons, IH by (intros; apply HPQ; by right).
  assert (Hx : P x ↔ Q x) by (apply HPQ; by left).
  destruct (decide (P x)), (decide (Q x)); tauto.
Qed.

Lemma isdir_join d dir k es :
  plain_name k = true →
  FS.resolve d dir = Ok (Dir es) →
  FS.isdir d (Path.join dir k) = is_subdir k es.
Proof.
  intros Hk Hdir. unfold FS.isdir, is_subdir.
  rewrite (resolve_join d dir k es Hk Hdir).
  by destruct (FS.entry k es) as [[?|?]|].
Qed.

(** What [update_store] does after choosing and running its command. *)
Lemma update_store_run w :
  Election.update_store w
  = refresh (with_disk (os_system (fetch_command w) (disk w)).2 w).
Proof.
  unfold Election.update_store, refresh, fetch_command.
  rewrite bind_run. unfold gets at 1. rewrite bind_run. unfold gets at 1.
  rewrite bind_run. unfold on_disk at 1. rewrite bind_run.
  destruct (FS.isdir (disk w) (META (self w))); simpl;
    unfold Election.system at 1; by destruct (os_system _ _).
Qed.

(** X7: when the elections path resolves to a directory whose entries have
    plain names, [update_keys] sets the known keys to the names of the
    entries that are directories, in listing order; files are left out, and
    the records map and the disk are not touched. *)
Theorem update_keys_lists_subdirectories (w : world)
    (es : list (string * node)) :
  FS.resolve (disk w) (_path (self w)) = Ok (Dir es) →
  (∀ n, n ∈ es.*1 → plain_name n = true) →
  Election.update_keys w
  = (Ok (),
     with_self
       (with_keys (filter (λ k, is_subdir k es) es.*1) (self w)) w).
Proof.
  intros Hres Hplain.
  rewrite (update_keys_run w es.*1) by (unfold FS.listdir; by rewrite Hres).
  do 3 f_equal. apply filter_ext_in. intros k Hk.
  by rewrite (isdir_join _ _ _ es (Hplain k Hk) Hres).
Qed.

(** X8: when the elections directory cannot be listed after the fetch,
    [update_store] raises the error of the listing; the known keys and the
    records map are as before, only the disk is what the fetch left. *)
Theorem update_store_without_listing (w : world) (code : Z) (d : node)
    (e : exn) :
  os_system (fetch_command w) (disk w) = (code, d) →
  FS.listdir d (_path (self w)) = Err e →
  Election.update_store w = (Err e, with_disk d w).
Proof.
  intros Hsys Hls. rewrite update_store_run, Hsys. simpl.
  unfold refresh, Election.update_keys.
  rewrite bind_run, bind_run. unfold gets at 1. cbv beta iota.
  rewrite bind_run. unfold try_disk at 1. simpl. by rewrite Hls.
Qed.

(** X9: when [update_store] returns a log, the log is what the reconciler
    answered on [all()] of the store as [update_store] leaves it. *)
Theorem update_store_reconciles_final_snapshot (w w' : world) (log : Log) :
  Election.update_store w = (Ok log, w') →
  ∃ rs, Meta.all w' = (Ok rs, w') ∧ sync_db_with_meta rs = Ok log.
Proof.
  rewrite update_store_run. unfold refresh.
  set (w1 := with_disk _ w). clearbody w1. intros H.
  rewrite bind_run in H.
  destruct (Election.update_keys w1) as [[[]|?] w2]; [|done].
  rewrite bind_run in H.
  destruct (Election.query w2) as [[[]|?] w3]; [|done].
  rewrite bind_run, all_run in H. unfold lift in H.
  injection H as Hlog <-. exists (snapshot (store (self w3))).
  by rewrite all_run.
Qed.

End SyncFacts.

(** ** Elections and candidates on disk *)

Section QueryFacts.

Context `{U : Utils}.

#[local] Hint Resolve readonly_parse_yaml_from_file
  readonly_check_election_status readonly_renderMD
  readonly_build_election_from_yaml readonly_fallback : ro.

Lemma no_sep_app a b :
  Path.no_sep (a +:+ b) = Path.no_sep a && Path.no_sep b.
Proof.
  induction a as [|c a IH]; [done|].
  rewrite append_cons. simpl. rewrite IH. by rewrite andb_assoc.
Qed.

(** The file name [candidate] asks for is a plain name whenever the
    candidate key holds no separator. *)
Lemma candidate_file_plain cid :
  Path.no_sep cid = true →
  plain_name ("candidate-" +:+ cid +:+ ".md") = true.
Proof.
  intros Hcid. unfold plain_name. apply andb_true_intro. split.
  - by rewrite !bool_decide_false by done.
  - by rewrite !no_sep_app, Hcid.
Qed.

Lemma readonly_where_loop f v rs : readonly (Meta.where_loop f v rs).
Proof. induction rs as [|r rs IH]; simpl; ro. Qed.

Lemma readonly_candidates_loop root eid files :
  readonly (Election.candidates_loop root eid files).
Proof. induction files as [|f files IH]; simpl; ro. Qed.

Lemma env_only_renderMD md file : env_only (utils.renderMD md file).
Proof. unfold utils.renderMD. env. Qed.

Lemma env_only_parse_yaml_from_file p :
  env_only (utils.parse_yaml_from_file p).
Proof. unfold utils.parse_yaml_from_file. env. Qed.

Lemma env_only_candidates_loop root eid files :
  env_only (Election.candidates_loop root eid files).
Proof.
  induction files as [|f files IH]; simpl; [env|].
  pose proof (readonly_candidates_loop root eid files).
  destruct (Path.contains "candidate" f); [|done].
  apply env_only_bind; [ro|env|intros md].
  apply env_only_bind; [ro|env|intros c].
  apply env_only_bind; [ro|env|intros id].
  apply env_only_bind; [done|done|intros rest]. env.
Qed.


(** X11: [candidates] succeeds whenever every listed name that contains
    [candidate] is a readable file whose text parses to a record with an
    [ID]; it then returns as many records as there are such names and
    leaves the world as it was. *)
Theorem candidates_succeeds_when_files_parse (w : world) (eid : string)
    (files : list string) :
  FS.listdir (disk w) (Path.join (_path (self w)) eid) = Ok files →
  (∀ f, f ∈ files → Path.contains "candidate" f = true →
     ∃ md c id,
       FS.read (disk w) (Path.join3 (_path (self w)) eid f) = Ok md
       ∧ extract_candidate_info md = Ok c
       ∧ c !! "ID" = Some id) →
  ∃ rs, Election.candidates eid w = (Ok rs, w)
      ∧ length rs
        = length (filter (λ f, Path.contains "candidate" f) files).
Proof.
  intros Hls Hfiles. unfold Election.candidates.
  rewrite bind_run. unfold gets at 1. cbv beta iota.
  rewrite bind_run. unfold try_disk at 1. rewrite Hls. cbv beta iota.
  clear Hls. induction files as [|f files IH]; [by exists []|].
  destruct IH as (rs & Hrs & Hlen); [intros; apply Hfiles; by try right|].
  simpl. rewrite filter_cons.
  destruct (Path.contains "candidate" f) eqn:Hf; simpl; [|by exists rs].
  destruct (Hfiles f) as (md & c & id & Hmd & Hc & Hid); [by left|done|].
  rewrite bind_run. unfold try_disk at 1. rewrite Hmd. cbv beta iota.
  rewrite bind_run. unfold lift at 1. rewrite Hc. cbv beta iota.
  rewrite bind_run. unfold getitem at 1. rewrite Hid.
  unfold mret at 1, M_ret at 1. cbv beta iota.
  rewrite bind_run, Hrs. eexists. split; [reflexivity|].
  simpl. by rewrite Hlen.
Qed.

(** X12: when the election directory exists and has no entry named
    [candidate-<cid>.md], for a [cid] without ['/'], [candidate] aborts with
    the not-found error before reading anything, and leaves the world as it
    was. *)
Theorem candidate_missing_file (w : world) (eid cid : string)
    (es : list (string * node)) :
  FS.resolve (disk w) (Path.join (_path (self w)) eid) = Ok (Dir es) →
  Path.no_sep cid = true →
  FS.entry ("candidate-" +:+ cid +:+ ".md") es = None →
  Election.candidate eid cid w = (Err NotFoundError, w).
Proof.
  intros Hdir Hcid Hnone. unfold Election.candidate.
  rewrite bind_run. unfold gets at 1. cbv beta iota.
  rewrite bind_run. unfold on_disk at 1. cbv beta iota.
  unfold FS.exists_, Path.join3.
  rewrite (resolve_join _ _ _ es (candidate_file_plain cid Hcid) Hdir).
  by rewrite Hnone.
Qed.

(** X13: the read methods never write: [get], [all], [where], [voters],
    [candidates] and [candidate] leave the known keys, the records map and
    the disk exactly as they found them, whether they return or raise. *)
Theorem queries_are_readonly (w : world) (k field eid cid : string)
    (v : value) :
  (Election.get k w).2 = w
  ∧ (Meta.all w).2 = w
  ∧ (Meta.where_ field v w).2 = w
  ∧ (Election.voters eid w).2 = w
  ∧ (Election.candidates eid w).2 = w
  ∧ (Election.candidate eid cid w).2 = w.
Proof.
  pose proof readonly_all as Hall.
  pose proof (readonly_where_loop field v) as Hloop.
  pose proof (readonly_candidates_loop) as Hcand.
  repeat split.
  - revert w. change (readonly (Election.get k)).
    unfold Election.get, Meta.get. ro.
  - apply Hall.
  - revert w. change (readonly (Meta.where_ field v)).
    unfold Meta.where_. ro.
  - revert w. change (readonly (Election.voters eid)).
    unfold Election.voters. ro.
  - revert w. change (readonly (Election.candidates eid)).
    unfold Election.candidates. ro.
  - revert w. change (readonly (Election.candidate eid cid)).
    unfold Election.candidate. ro.
Qed.

(** X14: [voters], [candidates] and [candidate] consult neither the known
    keys nor the records map: on two worlds with the same disk, clock and
    elections path they give the same answer, so they serve an election
    that no refresh has loaded. *)
Theorem candidate_queries_ignore_store (w1 w2 : world) (eid cid : string) :
  same_site w1 w2 →
  (Election.voters eid w1).1 = (Election.voters eid w2).1
  ∧ (Election.candidates eid w1).1 = (Election.candidates eid w2).1
  ∧ (Election.candidate eid cid w1).1 = (Election.candidate eid cid w2).1.
Proof.
  intros (Hd & Hc & Hp).
  pose proof env_only_candidates_loop as Hloop.
  pose proof readonly_candidates_loop as Hloop'.
  pose proof env_only_renderMD as Hmd.
  repeat split.
  - unfold Election.voters. rewrite !bind_run. unfold gets at 1 2.
    cbv beta iota. rewrite Hp. by apply env_only_parse_yaml_from_file.
  - unfold Election.candidates. rewrite (bind_run _ _ w1), (bind_run _ _ w2).
    unfold gets at 1 2. cbv beta iota. rewrite Hp.
    match goal with
    | |- (?m w1).1 = (?m w2).1 => assert (Hm : env_only m)
    end.
    { apply env_only_bind; [ro|env|done]. }
    by apply Hm.
  - unfold Election.candidate. rewrite (bind_run _ _ w1), (bind_run _ _ w2).
    unfold gets at 1 2. cbv beta iota zeta. rewrite Hp.
    match goal with
    | |- (?m w1).1 = (?m w2).1 => assert (Hm : env_only m)
    end.
    { unfold abort. env. }
    by apply Hm.
Qed.

(** X15: a backend fresh from its constructor serves nothing, whatever the
    disk holds: [get] aborts with the not-found error for every key, and
    [all] and [where] return the empty list. *)
Theorem init_serves_nothing (path remote branch secret : string) (d : node)
    (t : Z) (k field : string) (v : value) :
  Election.get k (Election.init path remote branch secret d t)
  = (Err NotFoundError, Election.init path remote branch secret d t)
  ∧ Meta.all (Election.init path remote branch secret d t)
    = (Ok [], Election.init path remote branch secret d t)
  ∧ Meta.where_ field v (Election.init path remote branch secret d t)
    = (Ok [], Election.init path remote branch secret d t).
Proof.
  split; [|split].
  - unfold Election.get, Meta.get. rewrite bind_run. unfold gets at 1.
    cbv beta iota. rewrite bool_decide_true; [done|]. apply not_elem_of_nil.
  - by rewrite all_run.
  - unfold Meta.where_. by rewrite bind_run, all_run.
Qed.

End QueryFacts.

(** ** Filtering after a refresh, and listings that cannot be read *)

Section MoreFacts.

Context `{U : Utils}.

(** Every entry of the map a refresh leaves was either parsed by it or was
    there before. *)
Lemma refresh_store_entries (f : string → result record) ks d k r :
  Dict.get k (refresh_store f ks d).2 = Some r →
  (∃ k', k' ∈ ks ∧ f k' = Ok r) ∨ Dict.get k d = Some r.
Proof.
  revert d. induction ks as [|k0 ks IH]; intros d; simpl; [by right|].
  destruct (f k0) as [r0|] eqn:Hf; [|by right].
  intros [(k' & Hk' & Hr)|Hget]%IH.
  - left. exists k'. split; [by right|done].
  - destruct (decide (k = k0)) as [->|Hne].
    + rewrite dict_get_set_eq in Hget. injection Hget as ->.
      left. exists k0. split; [by left|done].
    + rewrite dict_get_set_ne in Hget by done. by right.
Qed.

Lemma build_has_computed_field (w w' : world) (p f : string) (r : record) :
  Election.build_election_from_yaml p w = (Ok r, w') →
  f ∈ computed_fields →
  is_Some (r !! f).
Proof.
  unfold Election.build_election_from_yaml. intros H Hf. unroll H.
  unfold computed_fields in Hf. rewrite !elem_of_cons in Hf.
  destruct Hf as [->|[->|[->|[->|Hf]]]]; [..|by apply elem_of_nil in Hf];
    rewrite ?lookup_insert_ne by done; rewrite lookup_insert_eq; by eexists.
Qed.

Lemma forallb_true_in {A} (p : A → bool) (l : list A) :
  (∀ x, x ∈ l → p x = true) → forallb p l = true.
Proof.
  induction l as [|x l IH]; intros Hl; [done|].
  simpl. rewrite (Hl x) by (by left). apply IH. intros; apply Hl; by right.
Qed.

(** X16: once every record in the store has one of the computed fields,
    a [query], completed or not, keeps it so, and [where] on that field
    does not raise: it returns the records of [all()] whose field equals
    the value. *)
Theorem where_computed_field_after_query (w : world) (f : string)
    (v : value) :
  f ∈ computed_fields →
  (∀ k r, Dict.get k (store (self w)) = Some r → is_Some (r !! f)) →
  Meta.where_ f v (Election.query w).2
  = (Ok (filter (λ r, field_is f v r)
           (snapshot (store (self (Election.query w).2)))),
     (Election.query w).2).
Proof.
  intros Hf Hold. unfold Meta.where_.
  rewrite bind_run, all_run, where_loop_run.
  rewrite forallb_true_in; [done|].
  intros r Hr. unfold snapshot in Hr.
  apply list_elem_of_omap in Hr as (k & _ & Hget).
  unfold has_field. apply bool_decide_eq_true.
  rewrite query_run in Hget. simpl in Hget.
  apply refresh_store_entries in Hget as [(k' & _ & Hparsed)|Hget].
  - unfold parsed in Hparsed.
    destruct (Election.build_election_from_yaml _ w) as [res w1] eqn:E.
    simpl in Hparsed. subst res. by apply (build_has_computed_field _ _ _ _ _ E).
  - by apply (Hold k).
Qed.

(** X17: [candidates] tests names for the substring [candidate]; when the
    first listed name that contains it cannot be read as a file, a
    directory for one, [candidates] raises the error of that read and
    returns no record. *)
Theorem candidates_stops_at_unreadable (w : world) (eid f : string)
    (pre post : list string) (e : exn) :
  FS.listdir (disk w) (Path.join (_path (self w)) eid)
  = Ok (pre ++ f :: post) →
  (∀ g, g ∈ pre → Path.contains "candidate" g = false) →
  Path.contains "candidate" f = true →
  FS.read (disk w) (Path.join3 (_path (self w)) eid f) = Err e →
  Election.candidates eid w = (Err e, w).
Proof.
  intros Hls Hpre Hf Hread. unfold Election.candidates.
  rewrite bind_run. unfold gets at 1. cbv beta iota.
  rewrite bind_run. unfold try_disk at 1. rewrite Hls. cbv beta iota.
  clear Hls. induction pre as [|g pre IH]; simpl.
  - rewrite Hf, bind_run. unfold try_disk at 1. by rewrite Hread.
  - rewrite (Hpre g) by (by left). apply IH. intros; apply Hpre; by right.
Qed.

End MoreFacts.

(** ** The further properties on the sample repository *)

Lemma get_cached_ignores_disk_witness :
  Election.get "e1" (with_disk (Dir []) (at_ root ["e1"] [("e1", old)]))
  = (Ok old, with_disk (Dir []) (at_ root ["e1"] [("e1", old)])).
Proof.
  apply (get_cached_ignores_disk (at_ root ["e1"] [("e1", old)]) "e1" old
           (Dir [])).
  - compute_done.
  - reflexivity.
Defined.

Lemma all_lists_store_in_order_witness :
  Meta.all (at_ root [] [("e0", old); ("e1", board)])
  = (Ok [old; board], at_ root [] [("e0", old); ("e1", board)]).
Proof.
  apply (all_lists_store_in_order (at_ root [] [("e0", old); ("e1", board)])).
  compute_done.
Defined.

Lemma query_keeps_store_order_witness :
  Dict.keys [("e0", old)]
    `prefix_of` Dict.keys (store (self (Election.query
                   (at_ root ["e1"; "e2"] [("e0", old)])).2))
  ∧ NoDup (Dict.keys (store (self (Election.query
                   (at_ root ["e1"; "e2"] [("e0", old)])).2))).
Proof.
  apply (query_keeps_store_order (at_ root ["e1"; "e2"] [("e0", old)])).
  compute_done.
Defined.

Lemma get_after_query_witness :
  ∃ r, parsed (at_ tidy ["e1"] [("e0", old)]) "e1" = Ok r
     ∧ Election.get "e1" (at_ tidy ["e1"] [("e0", old); ("e1", board)])
       = (Ok r, at_ tidy ["e1"] [("e0", old); ("e1", board)]).
Proof.
  apply (get_after_query (at_ tidy ["e1"] [("e0", old)])
           (at_ tidy ["e1"] [("e0", old); ("e1", board)]) "e1").
  - by_run.
  - compute_done.
Defined.

Lemma query_stores_key_field_witness : board !! "key" = Some (VStr "e1").
Proof.
  apply (query_stores_key_field (at_ tidy ["e1"] [("e0", old)])
           (at_ tidy ["e1"] [("e0", old); ("e1", board)]) "e1" board).
  - by_run.
  - compute_done.
  - reflexivity.
  - by_run.
Defined.

Lemma query_idempotent_witness :
  Election.query (at_ tidy ["e1"] [("e0", old); ("e1", board)])
  = (Ok (), at_ tidy ["e1"] [("e0", old); ("e1", board)]).
Proof.
  apply (query_idempotent (at_ tidy ["e1"] [("e0", old)])).
  by_run.
Defined.

Lemma update_keys_lists_subdirectories_witness :
  Election.update_keys (at_ root [] [])
  = (Ok (),
     with_self
       (with_keys
          (filter (λ k, is_subdir k
                          [("e1", e1); ("e2", e2);
                           ("README.md", File "readme")])
             ["e1"; "e2"; "README.md"])
          (self (at_ root [] []))) (at_ root [] [])).
Proof.
  apply (update_keys_lists_subdirectories (at_ root [] [])
           [("e1", e1); ("e2", e2); ("README.md", File "readme")]).
  - by_run.
  - intros n Hn. simpl in Hn. rewrite !elem_of_cons in Hn.
    destruct Hn as [->|[->|[->|Hn]]]; [reflexivity..|].
    by apply elem_of_nil in Hn.
Defined.

Lemma update_store_without_listing_witness :
  Election.update_store (at_ bare ["e1"] [("e1", board)])
  = (Err (FileNotFoundError "/meta/elections"),
     with_disk bare (at_ bare ["e1"] [("e1", board)])).
Proof.
  apply (update_store_without_listing (at_ bare ["e1"] [("e1", board)])
           128 bare (FileNotFoundError "/meta/elections")).
  - reflexivity.
  - by_run.
Defined.

Lemma update_store_reconciles_final_snapshot_witness :
  ∃ rs, Meta.all (at_ tidy ["e1"] [("e1", board)])
        = (Ok rs, at_ tidy ["e1"] [("e1", board)])
      ∧ sync_db_with_meta rs = Ok 1%nat.
Proof.
  apply (update_store_reconciles_final_snapshot (U := fake) (at_ tidy [] [])
           (at_ tidy ["e1"] [("e1", board)]) 1%nat).
  by_run.
Defined.


Lemma candidates_succeeds_when_files_parse_witness :
  ∃ rs, Election.candidates "e1" (at_ scenario [] [])
        = (Ok rs, at_ scenario [] [])
      ∧ length rs
        = length (filter (λ f, Path.contains "candidate" f)
                    ["candidate-1.md"; "candidate-2.md"; "notes.md"]).
Proof.
  apply (candidates_succeeds_when_files_parse (at_ scenario [] []) "e1"
           ["candidate-1.md"; "candidate-2.md"; "notes.md"]).
  - by_run.
  - intros f Hf Hc. rewrite !elem_of_cons in Hf.
    destruct Hf as [->|[->|[->|Hf]]].
    + exists "ID: alice", {[ "ID" := VStr "alice" ]}, (VStr "alice").
      repeat split; by_run.
    + exists "ID: bob", {[ "ID" := VStr "bob" ]}, (VStr "bob").
      repeat split; by_run.
    + by vm_compute in Hc.
    + by apply elem_of_nil in Hf.
Defined.

Lemma candidate_missing_file_witness :
  Election.candidate "e1" "3" (at_ root [] [])
  = (Err NotFoundError, at_ root [] []).
Proof.
  apply (candidate_missing_file (at_ root [] []) "e1" "3"
           [("election.yaml", File "name: board");
            ("candidate-1.md", File "ID: alice");
            ("candidate-2.md", File "ID: bob");
            ("notes.md", File "minutes")]).
  - by_run.
  - reflexivity.
  - reflexivity.
Defined.

Lemma candidate_queries_ignore_store_witness :
  (Election.voters "e1" (at_ scenario [] [])).1
  = (Election.voters "e1" (at_ scenario ["e9"] [("e0", old)])).1
  ∧ (Election.candidates "e1" (at_ scenario [] [])).1
    = (Election.candidates "e1" (at_ scenario ["e9"] [("e0", old)])).1
  ∧ (Election.candidate "e1" "1" (at_ scenario [] [])).1
    = (Election.candidate "e1" "1" (at_ scenario ["e9"] [("e0", old)])).1.
Proof.
  apply (candidate_queries_ignore_store (at_ scenario [] [])
           (at_ scenario ["e9"] [("e0", old)]) "e1" "1").
  repeat split.
Defined.

Lemma where_computed_field_after_query_witness :
  Meta.where_ "status" (VStr "ONGOING")
    (Election.query (at_ root ["e1"; "e2"] [])).2
  = (Ok (filter (λ r, field_is "status" (VStr "ONGOING") r)
           (snapshot (store (self
              (Election.query (at_ root ["e1"; "e2"] [])).2)))),
     (Election.query (at_ root ["e1"; "e2"] [])).2).
Proof.
  apply (where_computed_field_after_query (at_ root ["e1"; "e2"] [])
           "status" (VStr "ONGOING")).
  - compute_done.
  - intros k r Hget. discriminate Hget.
Defined.

Lemma candidates_stops_at_unreadable_witness :
  Election.candidates "e1" (at_ crowded [] [])
  = (Err (IsADirectoryError "/meta/elections/e1/candidates"),
     at_ crowded [] []).
Proof.
  apply (candidates_stops_at_unreadable (at_ crowded [] []) "e1"
           "candidates" ["notes.md"] ["candidate-1.md"]).
  - by_run.
  - intros g Hg. apply list_elem_of_singleton in Hg. subst g. reflexivity.
  - reflexivity.
  - by_run.
Defined.

(** The status field of [e1] (start 100, end 200) just before, at and just
    after the two boundaries. *)
Example status_at_the_boundaries :
  (λ t, match (Election.build_election_from_yaml "/meta/elections/e1"
                 {| disk := root; clock := t; self := backend [] [] |}).1 with
        | Ok r => r !! "status"
        | Err _ => None
        end) <$> [99; 100; 200; 201]
  = [Some (VStr "UPCOMING"); Some (VStr "ONGOING"); Some (VStr "ONGOING");
     Some (VStr "ENDED")].
Proof. by_run. Qed.
